(** * A shallow embedding of the character CRDT of [src/editor/src/crdt.rs]

    Machine integers are modelled as [N] with Rust's overflow checks written
    out (a [+=] that leaves the range of its type panics, as in a debug
    build); a panic is [None].  Rust's [char] is modelled as [ascii] and a
    [String] as a list of characters ([String.string]).  The version vector
    [HashMap<u16, u32>] is a [gmap N N]. *)

From Stdlib Require Import Ascii String.
From stdpp Require Import base gmap list.

Module Crdt.

Definition u32_max : N := 4294967295.
Definition usize_max : N := 18446744073709551615.

(** [a + b] on [u32] / [usize] with overflow checks. *)
Definition checked_add_u32 (a b : N) : option N :=
  let r := (a + b)%N in if (r <=? u32_max)%N then Some r else None.

Definition checked_add_usize (a b : N) : option N :=
  let r := (a + b)%N in if (r <=? usize_max)%N then Some r else None.

(** ** [struct Id] and its [Ord] instance *)
Record Id := mkId { replica_id : N; value : N }.

(** [derive(PartialEq)] *)
Definition id_eqb (a b : Id) : bool :=
  (replica_id a =? replica_id b)%N && (value a =? value b)%N.

(** [impl Ord for Id]: by [value], then by [replica_id]. *)
Definition id_cmp (a b : Id) : comparison :=
  match N.compare (value a) (value b) with
  | Eq => N.compare (replica_id a) (replica_id b)
  | c => c
  end.

Definition id_ltb (a b : Id) : bool :=
  match id_cmp a b with Lt => true | _ => false end.

(** [==] on [Option<Id>] *)
Definition opt_id_eqb (a b : option Id) : bool :=
  match a, b with
  | None, None => true
  | Some x, Some y => id_eqb x y
  | _, _ => false
  end.

(** ** [struct Global] *)
Definition global_new : gmap N N := ∅.

(** [Global::update]: [entry(..).or_insert(0)] then raise to [id.value]. *)
Definition global_update (state : gmap N N) (id : Id) : gmap N N :=
  let current := default 0%N (state !! replica_id id) in
  <[replica_id id := if (current <? value id)%N then value id else current]> state.

(** ** [struct Op], [struct Node], [struct Buffer] *)
Record Op := mkOp {
  op_id : Id;
  relative_id : option Id;
  op_text : option ascii;
  op_version : gmap N N;
  is_delete : bool
}.

Record Node := mkNode {
  insertion_id : Id;
  relative_to_id : option Id;
  text : ascii;
  visible : bool
}.

Record Buffer := mkBuffer {
  b_replica_id : N;
  sequence : N;
  nodes : list Node;
  b_version : gmap N N;
  holdback_queue : list Op
}.

(** [Buffer::new] *)
Definition buffer_new (replica_id : N) : Buffer :=
  mkBuffer replica_id 0 [] global_new [].

(** [Buffer::render]: the [text] of the visible nodes, in list order. *)
Fixpoint render_chars (ns : list Node) : list ascii :=
  match ns with
  | [] => []
  | n :: t => if visible n then text n :: render_chars t else render_chars t
  end.

Definition render (b : Buffer) : string := string_of_list_ascii (render_chars (nodes b)).

(** [Buffer::find_index]: [position(|n| n.insertion_id == id)] *)
Fixpoint find_index (ns : list Node) (id : Id) : option nat :=
  match ns with
  | [] => None
  | n :: t => if id_eqb (insertion_id n) id then Some 0 else S <$> find_index t id
  end.

(** The loop of [find_visible_insertion_point]. *)
Fixpoint fvip_loop (visible_pos count : N) (ns : list Node) : option Id :=
  match ns with
  | [] => None
  | n :: t =>
      if visible n then
        let count := (count + 1)%N in
        if (count =? visible_pos)%N then Some (insertion_id n)
        else fvip_loop visible_pos count t
      else fvip_loop visible_pos count t
  end.

(** [Buffer::find_visible_insertion_point] *)
Definition find_visible_insertion_point (ns : list Node) (visible_pos : N) : option Id :=
  if (visible_pos =? 0)%N then None else fvip_loop visible_pos 0 ns.

(** [Vec::insert]: panics when [index > len]. *)
Definition vec_insert {A} (l : list A) (index : nat) (x : A) : option (list A) :=
  if Nat.leb index (length l) then Some (take index l ++ x :: drop index l) else None.

(** The [while] loop of [insert_node]; [rest] is [nodes[index..]]. *)
Fixpoint skip_siblings (node : Node) (rest : list Node) (index : nat) : nat :=
  match rest with
  | [] => index
  | curr :: rest' =>
      if opt_id_eqb (relative_to_id curr) (relative_to_id node)
         && id_ltb (insertion_id curr) (insertion_id node)
      then skip_siblings node rest' (S index)
      else index
  end.

(** [Buffer::insert_node] (on the node vector it mutates). *)
Definition insert_node (ns : list Node) (node : Node) : option (list Node) :=
  let index :=
    match relative_to_id node with
    | None => 0
    | Some rel =>
        match find_index ns rel with
        | Some idx => S idx
        | None => length ns   (* parent not found locally: append *)
        end
    end in
  let index := skip_siblings node (drop index ns) index in
  vec_insert ns index node.

(** [Buffer::apply_local_insert] *)
Definition apply_local_insert (b : Buffer) (pos : N) (c : ascii) : option (Buffer * Op) :=
  seq ← checked_add_u32 (sequence b) 1;
  let id := mkId (b_replica_id b) seq in
  let rel := find_visible_insertion_point (nodes b) pos in
  let node := mkNode id rel c true in
  ns ← insert_node (nodes b) node;
  let v := global_update (b_version b) id in
  Some (mkBuffer (b_replica_id b) seq ns v (holdback_queue b),
        mkOp id rel (Some c) v false).

(** The [for node in self.nodes.iter_mut()] loop of [apply_local_delete]. *)
Fixpoint delete_loop (pos count : N) (ns : list Node) : list Node * option Id :=
  match ns with
  | [] => ([], None)
  | n :: t =>
      if visible n then
        if (count =? pos)%N then
          (mkNode (insertion_id n) (relative_to_id n) (text n) false :: t,
           Some (insertion_id n))
        else let '(t', r) := delete_loop pos (count + 1) t in (n :: t', r)
      else let '(t', r) := delete_loop pos count t in (n :: t', r)
  end.

(** [Buffer::apply_local_delete] *)
Definition apply_local_delete (b : Buffer) (pos : N) : option (Buffer * Op) :=
  let '(ns, target_id) := delete_loop pos 0 (nodes b) in
  seq ← checked_add_u32 (sequence b) 1;
  let id := mkId (b_replica_id b) seq in
  let v := global_update (b_version b) id in
  Some (mkBuffer (b_replica_id b) seq ns v (holdback_queue b),
        mkOp id target_id None v true).

(** ** [CrdtBackend::apply_intent]

    The [Intent] variants are those [crdt.rs] matches on; every other
    variant (such as [MoveCursor]) falls into the [_ => {}] arm. *)
Inductive Intent :=
| InsertAt (pos : N) (txt : string)
| DeleteRange (start end_ : N)
| MoveCursor (pos : N)
| ReplaceAll (txt : string).

Record FrontendUpdate := mkFrontendUpdate { full_text : option string }.

(** [for (i, c) in text.chars().enumerate() { apply_local_insert(pos + i, c) }] *)
Fixpoint insert_at_loop (b : Buffer) (pos i : N) (cs : list ascii) : option Buffer :=
  match cs with
  | [] => Some b
  | c :: cs' =>
      p ← checked_add_usize pos i;
      '(b', _) ← apply_local_insert b p c;
      insert_at_loop b' pos (i + 1) cs'
  end.

(** [for _ in 0..k { apply_local_delete(pos) }] *)
Fixpoint delete_repeat (b : Buffer) (pos : N) (k : nat) : option Buffer :=
  match k with
  | O => Some b
  | S k' => '(b', _) ← apply_local_delete b pos; delete_repeat b' pos k'
  end.

(** [for (i, c) in text.chars().enumerate() { apply_local_insert(i, c) }] *)
Fixpoint insert_enum_loop (b : Buffer) (i : N) (cs : list ascii) : option Buffer :=
  match cs with
  | [] => Some b
  | c :: cs' => '(b', _) ← apply_local_insert b i c; insert_enum_loop b' (i + 1) cs'
  end.

(** [self.buffer.nodes.iter().filter(|n| n.visible).count()] *)
Fixpoint count_visible (ns : list Node) : nat :=
  match ns with
  | [] => 0
  | n :: t => if visible n then S (count_visible t) else count_visible t
  end.

Definition apply_intent_buffer (b : Buffer) (intent : Intent) : option Buffer :=
  match intent with
  | InsertAt pos txt => insert_at_loop b pos 0 (list_ascii_of_string txt)
  | DeleteRange start end_ => delete_repeat b start (N.to_nat (end_ - start))
  | ReplaceAll txt =>
      b' ← delete_repeat b 0 (count_visible (nodes b));
      insert_enum_loop b' 0 (list_ascii_of_string txt)
  | MoveCursor _ => Some b
  end.

Definition apply_intent (b : Buffer) (intent : Intent) : option (Buffer * FrontendUpdate) :=
  b' ← apply_intent_buffer b intent;
  Some (b', mkFrontendUpdate (Some (render b'))).

(** Pending-operation count: the size of the holdback queue. *)
Definition pending_operation_count (b : Buffer) : nat := length (holdback_queue b).

(** ** Helpers for stating properties *)

(** Integrate a list of nodes one after the other with [insert_node]. *)
Fixpoint integrate (ns : list Node) (ops : list Node) : option (list Node) :=
  match ops with
  | [] => Some ns
  | n :: t => ns' ← insert_node ns n; integrate ns' t
  end.

(** Each node's anchor is [None] or the Id of a node integrated before it. *)
Fixpoint anchors_ok (seen : list Id) (ops : list Node) : bool :=
  match ops with
  | [] => true
  | n :: t =>
      match relative_to_id n with
      | None => true
      | Some a => existsb (id_eqb a) seen
      end && anchors_ok (insertion_id n :: seen) t
  end.

(** The Ids of the nodes anchored at [a], in list order. *)
Definition siblings (ns : list Node) (a : option Id) : list Id :=
  map insertion_id (List.filter (fun n => opt_id_eqb (relative_to_id n) a) ns).

Fixpoint ids_ascending (l : list Id) : bool :=
  match l with
  | x :: ((y :: _) as t) => id_ltb x y && ids_ascending t
  | _ => true
  end.

Fixpoint count_id (ns : list Node) (id : Id) : nat :=
  match ns with
  | [] => 0
  | n :: t => (if id_eqb (insertion_id n) id then 1 else 0) + count_id t id
  end.

(** A local operation of the buffer, as [apply_local_insert] or
    [apply_local_delete] is called. *)
Inductive LocalOp :=
| LocalInsert (pos : N) (c : ascii)
| LocalDelete (pos : N).

Definition local_step (b : Buffer) (o : LocalOp) : option Buffer :=
  match o with
  | LocalInsert pos c => fst <$> apply_local_insert b pos c
  | LocalDelete pos => fst <$> apply_local_delete b pos
  end.

Fixpoint run_local (b : Buffer) (ops : list LocalOp) : option Buffer :=
  match ops with
  | [] => Some b
  | o :: t => b' ← local_step b o; run_local b' t
  end.

(** A sequence of [apply_intent] calls on one backend. *)
Fixpoint run_intents (b : Buffer) (intents : list Intent) : option Buffer :=
  match intents with
  | [] => Some b
  | i :: t => '(b', _) ← apply_intent b i; run_intents b' t
  end.

(** [apply_intent] runs to completion without an arithmetic overflow: the
    [u32] sequence counter has room for every local operation the intent
    performs and, for [InsertAt], every [pos + i] fits in [usize]. *)
Definition intent_fits (b : Buffer) (intent : Intent) : Prop :=
  match intent with
  | InsertAt pos txt =>
      (sequence b + N.of_nat (String.length txt) <= u32_max)%N /\
      (String.length txt = 0 \/ (pos + N.of_nat (String.length txt - 1) <= usize_max)%N)
  | DeleteRange start end_ => (sequence b + (end_ - start) <= u32_max)%N
  | ReplaceAll txt =>
      (sequence b + N.of_nat (count_visible (nodes b)) + N.of_nat (String.length txt)
       <= u32_max)%N
  | MoveCursor _ => True
  end.

(** The visible nodes, in list order ([nodes.iter().filter(|n| n.visible)]). *)
Definition visible_nodes (ns : list Node) : list Node := List.filter visible ns.

(** The index at which [insert_node] starts scanning for siblings. *)
Definition anchor_start (ns : list Node) (node : Node) : nat :=
  match relative_to_id node with
  | None => 0
  | Some rel =>
      match find_index ns rel with
      | Some idx => S idx
      | None => length ns
      end
  end.

(** The test of the [while] loop of [insert_node]: [curr] is a sibling of
    [node] with a smaller Id. *)
Definition skips (node curr : Node) : bool :=
  opt_id_eqb (relative_to_id curr) (relative_to_id node)
  && id_ltb (insertion_id curr) (insertion_id node).

(** Ids of a buffer edited only locally: no Id occurs twice, and no Id of
    the buffer's own replica is above its sequence counter. *)
Definition local_ids_ok (b : Buffer) : Prop :=
  NoDup (map insertion_id (nodes b)) /\
  forall id, id ∈ map insertion_id (nodes b) -> replica_id id = b_replica_id b ->
    (value id <= sequence b)%N.

(** A node with its [visible] flag cleared, and the fields a deletion keeps. *)
Definition tombstone (n : Node) : Node :=
  mkNode (insertion_id n) (relative_to_id n) (text n) false.

Definition node_key (n : Node) : Id * option Id * ascii :=
  (insertion_id n, relative_to_id n, text n).

(** Sample nodes: replica 1 types "a" then "b" after it; replica 2 types "c"
    at the start concurrently; replica 3 types "d" at the start. *)
Definition nX : Node := mkNode (mkId 1 1) None "a"%char true.
Definition nY : Node := mkNode (mkId 1 2) (Some (mkId 1 1)) "b"%char true.
Definition nZ : Node := mkNode (mkId 2 1) None "c"%char true.
Definition nV : Node := mkNode (mkId 3 1) None "d"%char true.

End Crdt.

(** * Properties *)
Module CrdtProps.
Import Crdt.


(** ** Shape of [insert_node] *)

Lemma find_index_lt (ns : list Node) (id : Id) (k : nat) :
  find_index ns id = Some k -> k < length ns.
Proof.
  revert k; induction ns as [|n t IH]; intros k; simpl; [discriminate|].
  destruct (id_eqb (insertion_id n) id).
  - intros H; injection H as <-; lia.
  - destruct (find_index t id) as [k'|] eqn:E; simpl; intros H; [|discriminate].
    injection H as <-. specialize (IH _ eq_refl); lia.
Qed.

Lemma skip_siblings_bounds (node : Node) (rest : list Node) (index : nat) :
  index <= skip_siblings node rest index <= index + length rest.
Proof.
  revert index; induction rest as [|c r IH]; intros index; simpl; [lia|].
  destruct (_ && _); [specialize (IH (S index)); lia | lia].
Qed.

Lemma vec_insert_skip (ns : list Node) (node : Node) (index : nat) :
  index <= length ns ->
  exists i, i <= length ns /\
    vec_insert ns (skip_siblings node (drop index ns) index) node
    = Some (take i ns ++ node :: drop i ns).
Proof.
  intros Hle.
  pose proof (skip_siblings_bounds node (drop index ns) index) as Hb.
  rewrite length_drop in Hb.
  exists (skip_siblings node (drop index ns) index); split; [lia|].
  unfold vec_insert. rewrite (proj2 (Nat.leb_le _ _)); [reflexivity|lia].
Qed.

(** [insert_node] always succeeds and puts the node at some index within
    bounds, leaving the other nodes in place. *)
Lemma insert_node_shape (ns : list Node) (node : Node) :
  exists i, i <= length ns /\ insert_node ns node = Some (take i ns ++ node :: drop i ns).
Proof.
  unfold insert_node.
  destruct (relative_to_id node) as [rel|].
  - destruct (find_index ns rel) as [idx|] eqn:E.
    + apply vec_insert_skip. apply find_index_lt in E; lia.
    + apply vec_insert_skip; lia.
  - apply vec_insert_skip; lia.
Qed.

(** The anchor is absent: the node goes to the end. *)
Lemma insert_node_missing_anchor (ns : list Node) (node : Node) (rel : Id) :
  relative_to_id node = Some rel -> find_index ns rel = None ->
  insert_node ns node = Some (ns ++ [node]).
Proof.
  intros Hr Hf. unfold insert_node. rewrite Hr, Hf, drop_all. simpl.
  unfold vec_insert. rewrite Nat.leb_refl, take_ge, drop_all by lia. reflexivity.
Qed.

Lemma count_id_app (l1 l2 : list Node) (id : Id) :
  count_id (l1 ++ l2) id = count_id l1 id + count_id l2 id.
Proof. induction l1 as [|n t IH]; simpl; [reflexivity|]. rewrite IH; lia. Qed.

Lemma render_chars_app (l1 l2 : list Node) :
  render_chars (l1 ++ l2) = render_chars l1 ++ render_chars l2.
Proof. induction l1 as [|n t IH]; simpl; [reflexivity|]. destruct (visible n); simpl; congruence. Qed.

Lemma id_eqb_refl (a : Id) : id_eqb a a = true.
Proof. unfold id_eqb. rewrite !N.eqb_refl. reflexivity. Qed.

Lemma checked_add_u32_some (a b : N) :
  (a + b <= u32_max)%N -> checked_add_u32 a b = Some (a + b)%N.
Proof. intros H. unfold checked_add_u32. rewrite (proj2 (N.leb_le _ _) H). reflexivity. Qed.

Lemma checked_add_u32_none (a b : N) :
  (u32_max < a + b)%N -> checked_add_u32 a b = None.
Proof.
  intros H. unfold checked_add_u32.
  destruct (N.leb_spec (a + b) u32_max); [lia | reflexivity].
Qed.

Lemma checked_add_usize_some (a b : N) :
  (a + b <= usize_max)%N -> checked_add_usize a b = Some (a + b)%N.
Proof. intros H. unfold checked_add_usize. rewrite (proj2 (N.leb_le _ _) H). reflexivity. Qed.

Lemma length_list_ascii_of_string (s : string) :
  length (list_ascii_of_string s) = String.length s.
Proof. induction s as [|a s IH]; simpl; congruence. Qed.

(** ** One step of each local operation *)

Lemma apply_local_insert_spec (b : Buffer) (pos : N) (c : ascii) :
  (sequence b + 1 <= u32_max)%N ->
  let id := mkId (b_replica_id b) (sequence b + 1) in
  let rel := find_visible_insertion_point (nodes b) pos in
  let v := global_update (b_version b) id in
  exists i, i <= length (nodes b) /\
    apply_local_insert b pos c =
      Some (mkBuffer (b_replica_id b) (sequence b + 1)
              (take i (nodes b) ++ mkNode id rel c true :: drop i (nodes b))
              v (holdback_queue b),
            mkOp id rel (Some c) v false).
Proof.
  intros H id rel v. unfold apply_local_insert.
  rewrite checked_add_u32_some by exact H. simpl.
  destruct (insert_node_shape (nodes b) (mkNode id rel c true)) as (i & Hi & Hs).
  exists i; split; [exact Hi|]. unfold id, rel in Hs. rewrite Hs. reflexivity.
Qed.

Lemma apply_local_insert_overflow (b : Buffer) (pos : N) (c : ascii) :
  (u32_max < sequence b + 1)%N -> apply_local_insert b pos c = None.
Proof. intros H. unfold apply_local_insert. rewrite checked_add_u32_none by exact H. reflexivity. Qed.

Lemma apply_local_delete_spec (b : Buffer) (pos : N) :
  (sequence b + 1 <= u32_max)%N ->
  let id := mkId (b_replica_id b) (sequence b + 1) in
  let v := global_update (b_version b) id in
  apply_local_delete b pos =
    Some (mkBuffer (b_replica_id b) (sequence b + 1) (delete_loop pos 0 (nodes b)).1
            v (holdback_queue b),
          mkOp id (delete_loop pos 0 (nodes b)).2 None v true).
Proof.
  intros H id v. unfold apply_local_delete.
  destruct (delete_loop pos 0 (nodes b)) as [ns t].
  rewrite checked_add_u32_some by exact H. reflexivity.
Qed.

Lemma apply_local_delete_overflow (b : Buffer) (pos : N) :
  (u32_max < sequence b + 1)%N -> apply_local_delete b pos = None.
Proof.
  intros H. unfold apply_local_delete.
  destruct (delete_loop pos 0 (nodes b)) as [ns t].
  rewrite checked_add_u32_none by exact H. reflexivity.
Qed.

(** ** The loops of [apply_intent] *)

Lemma insert_at_loop_total (pos : N) (cs : list ascii) :
  forall (b : Buffer) (i : N),
  (sequence b + N.of_nat (length cs) <= u32_max)%N ->
  (cs = [] \/ (pos + i + N.of_nat (length cs - 1) <= usize_max)%N) ->
  exists b', insert_at_loop b pos i cs = Some b' /\
    sequence b' = (sequence b + N.of_nat (length cs))%N /\
    holdback_queue b' = holdback_queue b.
Proof.
  induction cs as [|c cs IH]; intros b i Hs Hp; simpl.
  - exists b. split; [reflexivity|]. split; [lia|reflexivity].
  - assert (Hl : N.of_nat (length (c :: cs)) = (N.of_nat (length cs) + 1)%N)
      by (cbn [length]; lia).
    rewrite Hl in *. destruct Hp as [Hp|Hp]; [discriminate|].
    rewrite checked_add_usize_some by lia. simpl.
    destruct (apply_local_insert_spec b (pos + i) c) as (k & _ & E); [lia|].
    rewrite E. simpl.
    destruct (IH (mkBuffer (b_replica_id b) (sequence b + 1)
                  (take k (nodes b) ++
                   mkNode (mkId (b_replica_id b) (sequence b + 1))
                     (find_visible_insertion_point (nodes b) (pos + i)) c true
                   :: drop k (nodes b))
                  (global_update (b_version b) (mkId (b_replica_id b) (sequence b + 1)))
                  (holdback_queue b)) (i + 1)%N) as (b' & E' & Hs' & Hh');
      simpl; [lia| |].
    + destruct cs; [left; reflexivity | right; cbn [length] in *; lia].
    + exists b'. split; [exact E'|]. cbn [sequence holdback_queue] in *. split; [lia|exact Hh'].
Qed.

Lemma insert_enum_loop_total (cs : list ascii) :
  forall (b : Buffer) (i : N),
  (sequence b + N.of_nat (length cs) <= u32_max)%N ->
  exists b', insert_enum_loop b i cs = Some b' /\
    sequence b' = (sequence b + N.of_nat (length cs))%N /\
    holdback_queue b' = holdback_queue b.
Proof.
  induction cs as [|c cs IH]; intros b i Hs; simpl.
  - exists b. split; [reflexivity|]. split; [lia|reflexivity].
  - assert (Hl : N.of_nat (length (c :: cs)) = (N.of_nat (length cs) + 1)%N)
      by (cbn [length]; lia).
    rewrite Hl in *.
    destruct (apply_local_insert_spec b i c) as (k & _ & E); [lia|].
    rewrite E. simpl.
    edestruct IH as (b' & E' & Hs' & Hh'); [|exists b'; split; [exact E'|]].
    + simpl. lia.
    + simpl in *. split; [lia|exact Hh'].
Qed.

Lemma delete_repeat_total (pos : N) (k : nat) :
  forall (b : Buffer),
  (sequence b + N.of_nat k <= u32_max)%N ->
  exists b', delete_repeat b pos k = Some b' /\
    sequence b' = (sequence b + N.of_nat k)%N /\
    holdback_queue b' = holdback_queue b /\
    nodes b' = Nat.iter k (fun ns => (delete_loop pos 0 ns).1) (nodes b).
Proof.
  induction k as [|k IH]; intros b Hs; simpl.
  - exists b. repeat split; lia.
  - rewrite apply_local_delete_spec by lia. simpl.
    edestruct IH as (b' & E' & Hs' & Hh' & Hn'); [|exists b'; split; [exact E'|]].
    + simpl. lia.
    + simpl in *. split; [lia|]. split; [exact Hh'|].
      rewrite Hn'. clear. induction k as [|k IHk]; simpl; [reflexivity|]. rewrite IHk; reflexivity.
Qed.

(** ** Claims about [insert_node] *)

(** C1 (order determinism / convergence).  Replica 1 inserts "a" (Id (1,1),
    anchor None) and "b" after it (Id (1,2), anchor (1,1)); replica 2
    concurrently inserts "c" at the start (Id (2,1), anchor None).  Every
    anchor is present when its node is integrated, yet integrating in the
    order a, b, c renders "acb" and in the order c, a, b renders "abc".  With
    a fourth node "d" (Id (3,1), anchor None) integrated last after c, a, b,
    the nodes anchored at None are no longer in ascending Id order: the
    sibling skip stops at the first node with another anchor. *)
Lemma insert_node_order_dependent :
  anchors_ok [] [nX; nY; nZ] = true /\
  anchors_ok [] [nZ; nX; nY] = true /\
  (fun ns => string_of_list_ascii (render_chars ns)) <$> integrate [] [nX; nY; nZ]
    = Some "acb"%string /\
  (fun ns => string_of_list_ascii (render_chars ns)) <$> integrate [] [nZ; nX; nY]
    = Some "abc"%string /\
  anchors_ok [] [nZ; nX; nY; nV] = true /\
  (fun ns => siblings ns None) <$> integrate [] [nZ; nX; nY; nV]
    = Some [mkId 1 1; mkId 3 1; mkId 2 1] /\
  ids_ascending [mkId 1 1; mkId 3 1; mkId 2 1] = false.
Proof. repeat split; vm_compute; reflexivity. Qed.

(** C2 (idempotence), counterexample: replaying the insertion of a node
    already in the sequence duplicates it, and the text changes from "a" to
    "aa". *)
Lemma insert_node_replay_duplicates :
  insert_node [nX] nX = Some [nX; nX] /\
  render_chars [nX; nX] <> render_chars [nX].
Proof. split; [vm_compute; reflexivity | discriminate]. Qed.

(** C2 (idempotence), as the code behaves: [insert_node] has no duplicate
    guard; integrating a node whose Id is already present adds one more node
    with that Id, and one more character to the text when it is visible. *)
Theorem insert_node_no_duplicate_guard (ns : list Node) (node : Node) :
  find_index ns (insertion_id node) <> None ->
  exists ns', insert_node ns node = Some ns' /\
    length ns' = S (length ns) /\
    count_id ns' (insertion_id node) = S (count_id ns (insertion_id node)) /\
    length (render_chars ns') = (if visible node then 1 else 0) + length (render_chars ns).
Proof.
  intros _.
  destruct (insert_node_shape ns node) as (i & Hi & Hs).
  exists (take i ns ++ node :: drop i ns). split; [exact Hs|].
  pose proof (take_drop i ns) as Htd.
  remember (take i ns) as l1. remember (drop i ns) as l2.
  clear Heql1 Heql2 Hs Hi. subst ns.
  rewrite !length_app, !count_id_app, !render_chars_app, !length_app. simpl.
  rewrite id_eqb_refl. split; [lia|]. split; [lia|].
  destruct (visible node); simpl; rewrite ?length_app; simpl; lia.
Qed.

Lemma insert_node_no_duplicate_guard_witness :
  find_index [nX] (insertion_id nX) <> None /\
  exists ns', insert_node [nX] nX = Some ns' /\
    length ns' = S (length [nX]) /\
    count_id ns' (insertion_id nX) = S (count_id [nX] (insertion_id nX)) /\
    length (render_chars ns') = (if visible nX then 1 else 0) + length (render_chars [nX]).
Proof.
  split; [vm_compute; discriminate|].
  apply insert_node_no_duplicate_guard. vm_compute. discriminate.
Defined.

(** C3 (missing anchor), counterexample: a node anchored at Id (9,9), which
    no node of [[nX]] has, is integrated all the same. *)
Definition nW : Node := mkNode (mkId 9 10) (Some (mkId 9 9)) "w"%char true.

Lemma insert_node_missing_anchor_integrates :
  find_index [nX] (mkId 9 9) = None /\
  insert_node [nX] nW = Some [nX; nW].
Proof. split; vm_compute; reflexivity. Qed.

(** C3 (missing anchor), as the code behaves: when the anchor of a node is
    not present, [insert_node] appends the node at the end of the sequence
    (its text, when visible, goes at the end of the rendered text). *)
Theorem insert_node_missing_anchor_appends (ns : list Node) (node : Node) (rel : Id) :
  relative_to_id node = Some rel -> find_index ns rel = None ->
  insert_node ns node = Some (ns ++ [node]) /\
  render_chars (ns ++ [node]) = render_chars ns ++ (if visible node then [text node] else []).
Proof.
  intros Hr Hf. split; [exact (insert_node_missing_anchor ns node rel Hr Hf)|].
  rewrite render_chars_app. simpl. destruct (visible node); reflexivity.
Qed.

Lemma insert_node_missing_anchor_appends_witness :
  (relative_to_id nW = Some (mkId 9 9) /\ find_index [nX] (mkId 9 9) = None) /\
  insert_node [nX] nW = Some ([nX] ++ [nW]) /\
  render_chars ([nX] ++ [nW]) = render_chars [nX] ++ (if visible nW then [text nW] else []).
Proof.
  split; [split; vm_compute; reflexivity|].
  apply (insert_node_missing_anchor_appends [nX] nW (mkId 9 9)); vm_compute; reflexivity.
Defined.

(** ** C9: totality *)

(** C9 (totality), counterexample: [InsertAt] at position [usize::MAX] with
    two characters overflows [pos + i]; a buffer whose [u32] sequence counter
    is at its maximum overflows [self.sequence += 1]. *)
Lemma local_ops_overflow :
  apply_intent (buffer_new 1) (InsertAt usize_max "ab") = None /\
  apply_local_insert (mkBuffer 1 u32_max [] ∅ []) 0 "a"%char = None /\
  apply_local_delete (mkBuffer 1 u32_max [] ∅ []) 0 = None.
Proof. repeat split; vm_compute; reflexivity. Qed.

(** C9 (totality), as the code behaves: [insert_node] never fails (its
    index never exceeds the length); [apply_local_insert] and
    [apply_local_delete] fail exactly when the [u32] counter overflows; and
    [apply_intent] succeeds whenever its arithmetic stays in range. *)
Theorem local_ops_total_without_overflow :
  (forall (ns : list Node) (node : Node),
     exists i, i <= length ns /\ insert_node ns node = Some (take i ns ++ node :: drop i ns)) /\
  (forall (b : Buffer) (pos : N) (c : ascii),
     apply_local_insert b pos c = None <-> (u32_max < sequence b + 1)%N) /\
  (forall (b : Buffer) (pos : N),
     apply_local_delete b pos = None <-> (u32_max < sequence b + 1)%N) /\
  (forall (b : Buffer) (intent : Intent),
     intent_fits b intent -> apply_intent b intent <> None).
Proof.
  split; [exact insert_node_shape|]. split; [|split].
  - intros b pos c. split.
    + intros H. destruct (N.le_gt_cases (sequence b + 1) u32_max) as [Hle|Hgt]; [|lia].
      destruct (apply_local_insert_spec b pos c Hle) as (i & _ & E). congruence.
    + apply apply_local_insert_overflow.
  - intros b pos. split.
    + intros H. destruct (N.le_gt_cases (sequence b + 1) u32_max) as [Hle|Hgt]; [|lia].
      rewrite (apply_local_delete_spec b pos Hle) in H. discriminate.
    + apply apply_local_delete_overflow.
  - intros b [pos txt|s e|pos|txt] Hf; unfold apply_intent, apply_intent_buffer; simpl in Hf.
    + destruct Hf as [Hs Hp].
      rewrite <- !length_list_ascii_of_string in Hs, Hp.
      destruct (insert_at_loop_total pos (list_ascii_of_string txt) b 0) as (b' & E & _);
        [exact Hs| |rewrite E; discriminate].
      remember (list_ascii_of_string txt) as l. destruct l as [|a l]; [left; reflexivity|right].
      destruct Hp as [Hp|Hp]; [discriminate|lia].
    + destruct (delete_repeat_total s (N.to_nat (e - s)) b) as (b' & E & _); [lia|].
      rewrite E. discriminate.
    + discriminate.
    + destruct (delete_repeat_total 0 (count_visible (nodes b)) b) as (b' & E & Hs & _); [lia|].
      rewrite E. simpl.
      destruct (insert_enum_loop_total (list_ascii_of_string txt) b' 0) as (b'' & E' & _).
      { rewrite length_list_ascii_of_string. lia. }
      rewrite E'. discriminate.
Qed.

Lemma local_ops_total_without_overflow_witness :
  intent_fits (buffer_new 1) (InsertAt 0 "ab") /\
  apply_intent (buffer_new 1) (InsertAt 0 "ab") <> None.
Proof.
  split; [split; [vm_compute; discriminate | right; vm_compute; discriminate]|].
  apply (proj2 (proj2 (proj2 local_ops_total_without_overflow))).
  split; [vm_compute; discriminate | right; vm_compute; discriminate].
Defined.

(** ** Facts about a successful step *)

Lemma delete_loop_keys (pos count : N) (ns : list Node) :
  map node_key (delete_loop pos count ns).1 = map node_key ns.
Proof.
  revert count; induction ns as [|n t IH]; intros count; simpl; [reflexivity|].
  destruct (visible n).
  - destruct (count =? pos)%N; [reflexivity|].
    specialize (IH (count + 1)%N). destruct (delete_loop pos (count + 1) t). simpl in *. congruence.
  - specialize (IH count). destruct (delete_loop pos count t). simpl in *. congruence.
Qed.

Lemma keys_sublist_insert (ns : list Node) (i : nat) (x : Node) :
  sublist (map node_key ns) (map node_key (take i ns ++ x :: drop i ns)).
Proof.
  rewrite <- (take_drop i ns) at 1. rewrite !map_app. simpl.
  apply sublist_app; [reflexivity|]. apply sublist_cons. reflexivity.
Qed.

Lemma apply_local_insert_some (b b' : Buffer) (op : Op) (pos : N) (c : ascii) :
  apply_local_insert b pos c = Some (b', op) ->
  sequence b' = (sequence b + 1)%N /\ b_replica_id b' = b_replica_id b /\
  b_version b' = global_update (b_version b) (mkId (b_replica_id b) (sequence b + 1)) /\
  holdback_queue b' = holdback_queue b /\
  sublist (map node_key (nodes b)) (map node_key (nodes b')).
Proof.
  intros H. destruct (N.le_gt_cases (sequence b + 1) u32_max) as [Hle|Hgt].
  - destruct (apply_local_insert_spec b pos c Hle) as (i & _ & E).
    rewrite E in H. injection H as <- <-. simpl.
    repeat split; [apply keys_sublist_insert].
  - rewrite apply_local_insert_overflow in H by exact Hgt. discriminate.
Qed.

Lemma apply_local_delete_some (b b' : Buffer) (op : Op) (pos : N) :
  apply_local_delete b pos = Some (b', op) ->
  sequence b' = (sequence b + 1)%N /\ b_replica_id b' = b_replica_id b /\
  b_version b' = global_update (b_version b) (mkId (b_replica_id b) (sequence b + 1)) /\
  holdback_queue b' = holdback_queue b /\
  map node_key (nodes b') = map node_key (nodes b).
Proof.
  intros H. destruct (N.le_gt_cases (sequence b + 1) u32_max) as [Hle|Hgt].
  - rewrite (apply_local_delete_spec b pos Hle) in H. injection H as <- <-. simpl.
    repeat split. apply delete_loop_keys.
  - rewrite apply_local_delete_overflow in H by exact Hgt. discriminate.
Qed.

Lemma local_step_some (b b' : Buffer) (o : LocalOp) :
  local_step b o = Some b' ->
  sequence b' = (sequence b + 1)%N /\ b_replica_id b' = b_replica_id b /\
  b_version b' = global_update (b_version b) (mkId (b_replica_id b) (sequence b + 1)).
Proof.
  destruct o as [pos c|pos]; simpl.
  - destruct (apply_local_insert b pos c) as [[b1 op]|] eqn:E; simpl; [|discriminate].
    intros H; injection H as <-. apply apply_local_insert_some in E. tauto.
  - destruct (apply_local_delete b pos) as [[b1 op]|] eqn:E; simpl; [|discriminate].
    intros H; injection H as <-. apply apply_local_delete_some in E. tauto.
Qed.

(** Version vector of a buffer that has only run its own operations. *)
Definition own_version (r s : N) : gmap N N := if (s =? 0)%N then ∅ else {[r := s]}.

Lemma global_update_own (r s : N) :
  global_update (own_version r s) (mkId r (s + 1)) = own_version r (s + 1).
Proof.
  unfold global_update, own_version. simpl.
  replace ((s + 1 =? 0)%N) with false by (symmetry; apply N.eqb_neq; lia).
  destruct (N.eqb_spec s 0) as [->|Hs].
  - rewrite lookup_empty. simpl. rewrite insert_empty. reflexivity.
  - rewrite lookup_singleton_eq. simpl.
    replace ((s <? s + 1)%N) with true by (symmetry; apply N.ltb_lt; lia).
    apply insert_singleton_eq.
Qed.

Lemma run_local_own (ops : list LocalOp) :
  forall (b b' : Buffer),
  b_version b = own_version (b_replica_id b) (sequence b) ->
  run_local b ops = Some b' ->
  b_replica_id b' = b_replica_id b /\
  sequence b' = (sequence b + N.of_nat (length ops))%N /\
  b_version b' = own_version (b_replica_id b') (sequence b').
Proof.
  induction ops as [|o t IH]; intros b b' Hv; simpl.
  - intros H; injection H as <-. repeat split; [lia|exact Hv].
  - destruct (local_step b o) as [b1|] eqn:E; simpl; [|discriminate].
    intros Hr. destruct (local_step_some _ _ _ E) as (Hs1 & Hr1 & Hv1).
    destruct (IH b1 b') as (Hr' & Hs' & Hv'); [|exact Hr|].
    + rewrite Hv1, Hv, Hr1, Hs1. apply global_update_own.
    + split; [congruence|]. split; [lia|exact Hv'].
Qed.

(** ** Out-of-range positions *)

Lemma fvip_loop_out_of_range (pos : N) (ns : list Node) :
  forall count : N, (count + N.of_nat (count_visible ns) < pos)%N ->
  fvip_loop pos count ns = None.
Proof.
  induction ns as [|n t IH]; intros count H; simpl; [reflexivity|].
  simpl in H. destruct (visible n).
  - rewrite Nat2N.inj_succ in H.
    replace ((count + 1 =? pos)%N) with false by (symmetry; apply N.eqb_neq; lia).
    apply IH. lia.
  - apply IH. exact H.
Qed.

Lemma delete_loop_out_of_range (pos : N) (ns : list Node) :
  forall count : N, (count + N.of_nat (count_visible ns) <= pos)%N ->
  delete_loop pos count ns = (ns, None).
Proof.
  induction ns as [|n t IH]; intros count H; simpl; [reflexivity|].
  simpl in H. destruct (visible n).
  - rewrite Nat2N.inj_succ in H.
    replace ((count =? pos)%N) with false by (symmetry; apply N.eqb_neq; lia).
    rewrite IH by lia. reflexivity.
  - rewrite IH by exact H. reflexivity.
Qed.

(** C4 (out-of-range insert): a position beyond the number of visible nodes
    finds no anchor; [apply_local_insert] then does exactly what it does at
    position 0, and the Op it returns has anchor [None]. *)
Theorem out_of_range_insert_at_start (b : Buffer) (pos : N) (c : ascii) :
  (N.of_nat (count_visible (nodes b)) < pos)%N ->
  find_visible_insertion_point (nodes b) pos = None /\
  apply_local_insert b pos c = apply_local_insert b 0 c /\
  (forall (b' : Buffer) (op : Op),
     apply_local_insert b pos c = Some (b', op) -> relative_id op = None).
Proof.
  intros H.
  assert (Hf : find_visible_insertion_point (nodes b) pos = None).
  { unfold find_visible_insertion_point.
    replace ((pos =? 0)%N) with false by (symmetry; apply N.eqb_neq; lia).
    apply fvip_loop_out_of_range. lia. }
  assert (He : apply_local_insert b pos c = apply_local_insert b 0 c).
  { unfold apply_local_insert. rewrite Hf. reflexivity. }
  split; [exact Hf|]. split; [exact He|].
  intros b' op E. unfold apply_local_insert in E. rewrite Hf in E.
  destruct (checked_add_u32 (sequence b) 1); simpl in E; [|discriminate].
  destruct (insert_node _ _); simpl in E; [|discriminate].
  injection E as _ <-. reflexivity.
Qed.

Definition sample_buffer : Buffer := mkBuffer 1 1 [nX] {[1%N := 1%N]} [].

Lemma out_of_range_insert_at_start_witness :
  (N.of_nat (count_visible (nodes sample_buffer)) < 5)%N /\
  find_visible_insertion_point (nodes sample_buffer) 5 = None /\
  apply_local_insert sample_buffer 5 "z"%char = apply_local_insert sample_buffer 0 "z"%char /\
  (forall (b' : Buffer) (op : Op),
     apply_local_insert sample_buffer 5 "z"%char = Some (b', op) -> relative_id op = None).
Proof.
  split; [vm_compute; reflexivity|].
  apply out_of_range_insert_at_start. vm_compute. reflexivity.
Defined.

(** C5 (out-of-range delete): at a position at or beyond the number of
    visible nodes, [apply_local_delete] toggles no node, yet takes the next
    sequence number, folds it into the version vector and returns a delete
    Op with anchor [None]. *)
Theorem out_of_range_delete_noop (b : Buffer) (pos : N) :
  (N.of_nat (count_visible (nodes b)) <= pos)%N ->
  (sequence b + 1 <= u32_max)%N ->
  exists (b' : Buffer) (op : Op),
    apply_local_delete b pos = Some (b', op) /\
    nodes b' = nodes b /\ render b' = render b /\
    sequence b' = (sequence b + 1)%N /\
    b_version b' = global_update (b_version b) (mkId (b_replica_id b) (sequence b + 1)) /\
    op_id op = mkId (b_replica_id b) (sequence b + 1) /\
    relative_id op = None /\ is_delete op = true.
Proof.
  intros Hpos Hs.
  rewrite (apply_local_delete_spec b pos Hs).
  rewrite (delete_loop_out_of_range pos (nodes b) 0) by lia. simpl.
  eexists _, _. split; [reflexivity|]. repeat split.
Qed.

Lemma out_of_range_delete_noop_witness :
  ((N.of_nat (count_visible (nodes sample_buffer)) <= 1)%N /\
   (sequence sample_buffer + 1 <= u32_max)%N) /\
  exists (b' : Buffer) (op : Op),
    apply_local_delete sample_buffer 1 = Some (b', op) /\
    nodes b' = nodes sample_buffer /\ render b' = render sample_buffer /\
    sequence b' = (sequence sample_buffer + 1)%N /\
    b_version b' = global_update (b_version sample_buffer)
                     (mkId (b_replica_id sample_buffer) (sequence sample_buffer + 1)) /\
    op_id op = mkId (b_replica_id sample_buffer) (sequence sample_buffer + 1) /\
    relative_id op = None /\ is_delete op = true.
Proof.
  split; [split; vm_compute; discriminate|].
  apply out_of_range_delete_noop; vm_compute; discriminate.
Defined.

(** ** C6: the version vector *)

(** C6 (version-vector counting and monotonicity): after [n] local
    operations of any kind on a fresh buffer of replica [r], entry [r] of
    the version vector is [n] (absent, i.e. 0, when [n = 0]) and so is the
    sequence counter; [Global::update] sets the entry of the Id's replica to
    the maximum of its current value (0 when absent) and the Id's value; and
    no entry ever decreases, neither through [update] nor through a local
    operation. *)
Theorem version_vector_counts_local_ops :
  (forall (r : N) (ops : list LocalOp) (b' : Buffer),
     run_local (buffer_new r) ops = Some b' ->
     sequence b' = N.of_nat (length ops) /\
     default 0%N (b_version b' !! r) = N.of_nat (length ops) /\
     (ops <> [] -> b_version b' !! r = Some (N.of_nat (length ops)))) /\
  (forall (state : gmap N N) (id : Id),
     global_update state id !! replica_id id
       = Some (N.max (default 0%N (state !! replica_id id)) (value id))) /\
  (forall (state : gmap N N) (id : Id) (k : N),
     (default 0%N (state !! k) <= default 0%N (global_update state id !! k))%N /\
     (is_Some (state !! k) -> is_Some (global_update state id !! k))) /\
  (forall (b b' : Buffer) (o : LocalOp) (k : N),
     local_step b o = Some b' ->
     (default 0%N (b_version b !! k) <= default 0%N (b_version b' !! k))%N).
Proof.
  assert (Hmono : forall (state : gmap N N) (id : Id) (k : N),
     (default 0%N (state !! k) <= default 0%N (global_update state id !! k))%N /\
     (is_Some (state !! k) -> is_Some (global_update state id !! k))).
  { intros state id k. unfold global_update.
    destruct (decide (replica_id id = k)) as [<-|Hne].
    - rewrite lookup_insert_eq. simpl. split; [|intros _; eexists; reflexivity].
      destruct (N.ltb_spec (default 0%N (state !! replica_id id)) (value id)); lia.
    - rewrite lookup_insert_ne by exact Hne. split; [lia|tauto]. }
  split; [|split; [|split]].
  - intros r ops b' H.
    destruct (run_local_own ops (buffer_new r) b') as (Hr & Hs & Hv); [reflexivity|exact H|].
    simpl in Hr, Hs. rewrite Hr in Hv. rewrite Hv. unfold own_version.
    rewrite Hs. split; [lia|].
    destruct ops as [|o t].
    + simpl. rewrite lookup_empty. split; [reflexivity|congruence].
    + replace ((0 + N.of_nat (length (o :: t)) =? 0)%N) with false
        by (symmetry; apply N.eqb_neq; cbn [length]; lia).
      rewrite lookup_singleton_eq. split; [reflexivity|intros _; f_equal; lia].
  - intros state id. unfold global_update. rewrite lookup_insert_eq. f_equal.
    destruct (N.ltb_spec (default 0%N (state !! replica_id id)) (value id)); lia.
  - exact Hmono.
  - intros b b' o k H. destruct (local_step_some b b' o H) as (_ & _ & ->).
    apply Hmono.
Qed.

Definition sample_local_ops : list LocalOp :=
  [LocalInsert 0 "a"%char; LocalDelete 9; LocalInsert 1 "b"%char].

Definition sample_local_result : Buffer :=
  mkBuffer 7 3 [mkNode (mkId 7 1) None "a"%char true;
                mkNode (mkId 7 3) (Some (mkId 7 1)) "b"%char true]
    {[7%N := 3%N]} [].

Lemma version_vector_counts_local_ops_witness :
  run_local (buffer_new 7) sample_local_ops = Some sample_local_result /\
  default 0%N (b_version sample_local_result !! 7%N) = N.of_nat (length sample_local_ops).
Proof.
  assert (H : run_local (buffer_new 7) sample_local_ops = Some sample_local_result)
    by (vm_compute; reflexivity).
  split; [exact H|].
  exact (proj1 (proj2 (proj1 version_vector_counts_local_ops 7%N _ _ H))).
Defined.

(** ** The loops of [apply_intent] keep the holdback queue and every node *)

Definition keeps (b b' : Buffer) : Prop :=
  holdback_queue b' = holdback_queue b /\
  sublist (map node_key (nodes b)) (map node_key (nodes b')).

Lemma keeps_trans (b1 b2 b3 : Buffer) : keeps b1 b2 -> keeps b2 b3 -> keeps b1 b3.
Proof. intros [H1 S1] [H2 S2]. split; [congruence|]. etransitivity; eassumption. Qed.

Lemma keeps_refl (b : Buffer) : keeps b b.
Proof. split; reflexivity. Qed.

Lemma apply_local_insert_keeps (b b' : Buffer) (op : Op) (pos : N) (c : ascii) :
  apply_local_insert b pos c = Some (b', op) -> keeps b b'.
Proof. intros H. apply apply_local_insert_some in H. split; tauto. Qed.

Lemma apply_local_delete_keeps (b b' : Buffer) (op : Op) (pos : N) :
  apply_local_delete b pos = Some (b', op) -> keeps b b'.
Proof.
  intros H. apply apply_local_delete_some in H as (_ & _ & _ & Hh & Hk).
  split; [exact Hh|]. rewrite Hk. reflexivity.
Qed.

Lemma insert_at_loop_keeps (pos : N) (cs : list ascii) :
  forall (b b' : Buffer) (i : N), insert_at_loop b pos i cs = Some b' -> keeps b b'.
Proof.
  induction cs as [|c cs IH]; intros b b' i H; simpl in H.
  - injection H as <-. apply keeps_refl.
  - destruct (checked_add_usize pos i) as [p|]; simpl in H; [|discriminate].
    destruct (apply_local_insert b p c) as [[b1 op]|] eqn:E; simpl in H; [|discriminate].
    eapply keeps_trans; [eapply apply_local_insert_keeps, E | eapply IH, H].
Qed.

Lemma insert_enum_loop_keeps (cs : list ascii) :
  forall (b b' : Buffer) (i : N), insert_enum_loop b i cs = Some b' -> keeps b b'.
Proof.
  induction cs as [|c cs IH]; intros b b' i H; simpl in H.
  - injection H as <-. apply keeps_refl.
  - destruct (apply_local_insert b i c) as [[b1 op]|] eqn:E; simpl in H; [|discriminate].
    eapply keeps_trans; [eapply apply_local_insert_keeps, E | eapply IH, H].
Qed.

Lemma delete_repeat_some (pos : N) (k : nat) :
  forall (b b' : Buffer), delete_repeat b pos k = Some b' ->
  keeps b b' /\ sequence b' = (sequence b + N.of_nat k)%N /\
  nodes b' = Nat.iter k (fun ns => (delete_loop pos 0 ns).1) (nodes b).
Proof.
  induction k as [|k IH]; intros b b' H; simpl in H.
  - injection H as <-. split; [apply keeps_refl|]. split; [lia|reflexivity].
  - destruct (N.le_gt_cases (sequence b + 1) u32_max) as [Hle|Hgt].
    2: { rewrite apply_local_delete_overflow in H by exact Hgt. discriminate. }
    pose proof (apply_local_delete_keeps b _ _ pos (apply_local_delete_spec b pos Hle)) as Hk.
    rewrite (apply_local_delete_spec b pos Hle) in H. simpl in H.
    destruct (IH _ _ H) as (Hk' & Hs' & Hn'). simpl in Hs', Hn'.
    split; [eapply keeps_trans; eassumption|]. split; [lia|].
    rewrite Hn'. clear. induction k as [|k IHk]; simpl; [reflexivity|]. rewrite IHk; reflexivity.
Qed.

Lemma apply_intent_buffer_keeps (b b' : Buffer) (intent : Intent) :
  apply_intent_buffer b intent = Some b' -> keeps b b'.
Proof.
  destruct intent as [pos txt|s e|pos|txt]; simpl; intros H.
  - eapply insert_at_loop_keeps, H.
  - eapply delete_repeat_some, H.
  - injection H as <-. apply keeps_refl.
  - destruct (delete_repeat b 0 (count_visible (nodes b))) as [b1|] eqn:E; simpl in H;
      [|discriminate].
    eapply keeps_trans; [eapply delete_repeat_some, E | eapply insert_enum_loop_keeps, H].
Qed.

Lemma apply_intent_keeps (b b' : Buffer) (intent : Intent) (u : FrontendUpdate) :
  apply_intent b intent = Some (b', u) -> keeps b b'.
Proof.
  unfold apply_intent. destruct (apply_intent_buffer b intent) as [b1|] eqn:E; simpl;
    [|discriminate].
  intros H; injection H as <- _. eapply apply_intent_buffer_keeps, E.
Qed.

Lemma run_intents_keeps (intents : list Intent) :
  forall (b b' : Buffer), run_intents b intents = Some b' -> keeps b b'.
Proof.
  induction intents as [|i t IH]; intros b b' H; simpl in H.
  - injection H as <-. apply keeps_refl.
  - destruct (apply_intent b i) as [[b1 u]|] eqn:E; simpl in H; [|discriminate].
    eapply keeps_trans; [eapply apply_intent_keeps, E | eapply IH, H].
Qed.

Lemma run_local_keeps (ops : list LocalOp) :
  forall (b b' : Buffer), run_local b ops = Some b' -> keeps b b'.
Proof.
  induction ops as [|o t IH]; intros b b' H; simpl in H.
  - injection H as <-. apply keeps_refl.
  - destruct o as [pos c|pos]; simpl in H.
  + destruct (apply_local_insert b pos c) as [[b1 op]|] eqn:E; simpl in H; [|discriminate].
    eapply keeps_trans; [eapply apply_local_insert_keeps, E | eapply IH, H].
  + destruct (apply_local_delete b pos) as [[b1 op]|] eqn:E; simpl in H; [|discriminate].
    eapply keeps_trans; [eapply apply_local_delete_keeps, E | eapply IH, H].
Qed.

(** ** C10: the holdback queue *)

(** C10 (holdback queue): a new buffer has an empty holdback queue, and no
    operation of the implementation changes it ([insert_node] only sees the
    node vector), so after any run of intents or of local operations on a
    new buffer the pending-operation count is 0. *)
Theorem holdback_queue_never_populated :
  (forall r : N, holdback_queue (buffer_new r) = [] /\
                 pending_operation_count (buffer_new r) = 0) /\
  (forall (b b' : Buffer) (op : Op) (pos : N) (c : ascii),
     apply_local_insert b pos c = Some (b', op) -> holdback_queue b' = holdback_queue b) /\
  (forall (b b' : Buffer) (op : Op) (pos : N),
     apply_local_delete b pos = Some (b', op) -> holdback_queue b' = holdback_queue b) /\
  (forall (b b' : Buffer) (intent : Intent) (u : FrontendUpdate),
     apply_intent b intent = Some (b', u) -> holdback_queue b' = holdback_queue b) /\
  (forall (r : N) (intents : list Intent) (b' : Buffer),
     run_intents (buffer_new r) intents = Some b' -> pending_operation_count b' = 0) /\
  (forall (r : N) (ops : list LocalOp) (b' : Buffer),
     run_local (buffer_new r) ops = Some b' -> pending_operation_count b' = 0).
Proof.
  split; [intros r; split; reflexivity|].
  split; [intros; eapply apply_local_insert_keeps; eassumption|].
  split; [intros; eapply apply_local_delete_keeps; eassumption|].
  split; [intros; eapply apply_intent_keeps; eassumption|].
  split.
  - intros r intents b' H. unfold pending_operation_count.
    rewrite (proj1 (run_intents_keeps intents _ _ H)). reflexivity.
  - intros r ops b' H. unfold pending_operation_count.
    rewrite (proj1 (run_local_keeps ops _ _ H)). reflexivity.
Qed.

Definition sample_intents : list Intent :=
  [InsertAt 0 "abc"; DeleteRange 1 2; MoveCursor 4; ReplaceAll "xy"; InsertAt 9 "z"].

Lemma holdback_queue_never_populated_witness :
  (exists b', run_intents (buffer_new 2) sample_intents = Some b') /\
  (forall b', run_intents (buffer_new 2) sample_intents = Some b' ->
              pending_operation_count b' = 0).
Proof.
  split; [eexists; vm_compute; reflexivity|].
  intros b' H. exact (proj1 (proj2 (proj2 (proj2 (proj2 holdback_queue_never_populated))))
                       2%N sample_intents b' H).
Defined.

(** ** Rendering after deletions *)

Lemma delete_loop_render (pos : N) (ns : list Node) :
  forall count : N, (count <= pos)%N ->
  render_chars (delete_loop pos count ns).1 = delete (N.to_nat (pos - count)) (render_chars ns).
Proof.
  induction ns as [|n t IH]; intros count H; simpl; [destruct (N.to_nat _); reflexivity|].
  destruct (visible n) eqn:Hv.
  - destruct (N.eqb_spec count pos) as [->|Hne].
    + rewrite N.sub_diag. reflexivity.
    + specialize (IH (count + 1)%N ltac:(lia)).
      destruct (delete_loop pos (count + 1) t) as [t' r]. simpl in *.
      rewrite Hv, IH.
      replace (N.to_nat (pos - count)) with (S (N.to_nat (pos - (count + 1)))) by lia.
      reflexivity.
  - specialize (IH count H). destruct (delete_loop pos count t) as [t' r]. simpl in *.
    rewrite Hv. exact IH.
Qed.

Lemma count_visible_render (ns : list Node) : count_visible ns = length (render_chars ns).
Proof. induction ns as [|n t IH]; simpl; [reflexivity|]. destruct (visible n); simpl; lia. Qed.

Lemma render_chars_of_render (b : Buffer) (s : string) :
  render b = s -> render_chars (nodes b) = list_ascii_of_string s.
Proof. unfold render. intros <-. symmetry. apply list_ascii_of_string_of_list_ascii. Qed.

Lemma map_tombstone_delete_loop (pos count : N) (ns : list Node) :
  map tombstone (delete_loop pos count ns).1 = map tombstone ns.
Proof.
  pose proof (delete_loop_keys pos count ns) as Hk.
  apply (f_equal (map (fun k : Id * option Id * ascii => mkNode k.1.1 k.1.2 k.2 false))) in Hk.
  rewrite !map_map in Hk. exact Hk.
Qed.

Lemma map_tombstone_iter (pos : N) (k : nat) (ns : list Node) :
  map tombstone (Nat.iter k (fun ns => (delete_loop pos 0 ns).1) ns) = map tombstone ns.
Proof.
  induction k as [|k IH]; simpl; [reflexivity|]. rewrite map_tombstone_delete_loop. exact IH.
Qed.

Lemma map_tombstone_invisible (ns : list Node) :
  count_visible ns = 0 -> map tombstone ns = ns.
Proof.
  induction ns as [|[id rel c v] t IH]; simpl; [reflexivity|].
  destruct v; [discriminate|]. intros H. rewrite IH by exact H. reflexivity.
Qed.

Lemma sublist_insert_at {A} (l : list A) (i : nat) (x : A) :
  sublist l (take i l ++ x :: drop i l).
Proof.
  rewrite <- (take_drop i l) at 1.
  apply sublist_app; [reflexivity|]. apply sublist_cons. reflexivity.
Qed.

(** ** C7: [DeleteRange] *)

(** C7 (DeleteRange, Scenario B): [DeleteRange{start, end}] performs
    [apply_local_delete(start)] [end - start] times (the counter advances by
    [end - start] and the nodes are those of [end - start] deletions at
    [start]); on a buffer rendering "abcd", [DeleteRange{1, 3}] renders
    "ad". *)
Theorem delete_range_scenario_b :
  (forall (b b' : Buffer) (start end_ : N),
     apply_intent_buffer b (DeleteRange start end_) = Some b' ->
     sequence b' = (sequence b + (end_ - start))%N /\
     nodes b' = Nat.iter (N.to_nat (end_ - start))
                  (fun ns => (delete_loop start 0 ns).1) (nodes b)) /\
  (forall b : Buffer,
     render b = "abcd"%string -> (sequence b + 2 <= u32_max)%N ->
     exists b', apply_intent b (DeleteRange 1 3) = Some (b', mkFrontendUpdate (Some (render b'))) /\
       render b' = "ad"%string).
Proof.
  split.
  - intros b b' start end_ H. simpl in H.
    destruct (delete_repeat_some _ _ _ _ H) as (_ & Hs & Hn).
    split; [rewrite Hs; lia | exact Hn].
  - intros b Hr Hs. apply render_chars_of_render in Hr.
    unfold apply_intent, apply_intent_buffer.
    destruct (delete_repeat_total 1 (N.to_nat (3 - 1)) b) as (b' & E & _ & _ & Hn);
      [change (N.to_nat (3 - 1)) with 2%nat; lia|].
    rewrite E. simpl. exists b'. split; [reflexivity|].
    unfold render. rewrite Hn. simpl.
    rewrite !delete_loop_render by lia. rewrite Hr. vm_compute. reflexivity.
Qed.

Lemma delete_range_scenario_b_witness :
  exists b', apply_intent (mkBuffer 1 4 [mkNode (mkId 1 1) None "a"%char true;
                                       mkNode (mkId 1 2) (Some (mkId 1 1)) "b"%char true;
                                       mkNode (mkId 1 3) (Some (mkId 1 2)) "c"%char true;
                                       mkNode (mkId 1 4) (Some (mkId 1 3)) "d"%char true]
                             {[1%N := 4%N]} [])
                          (DeleteRange 1 3) = Some (b', mkFrontendUpdate (Some (render b'))) /\
             render b' = "ad"%string.
Proof. apply (proj2 delete_range_scenario_b); vm_compute; [reflexivity|discriminate]. Defined.

(** ** C8: [ReplaceAll] and tombstones *)

(** C8 (ReplaceAll, Scenario D): on a buffer rendering "abc",
    [ReplaceAll{"x"}] renders "x", and every original node is still in the
    sequence, now with [visible = false]; and no intent ever removes a node
    or changes its Id, anchor or character. *)
Theorem replace_all_scenario_d :
  (forall b : Buffer,
     render b = "abc"%string -> (sequence b + 4 <= u32_max)%N ->
     exists b', apply_intent b (ReplaceAll "x") = Some (b', mkFrontendUpdate (Some (render b'))) /\
       render b' = "x"%string /\
       sublist (map tombstone (nodes b)) (nodes b') /\
       length (nodes b') = S (length (nodes b))) /\
  (forall (b b' : Buffer) (intent : Intent),
     apply_intent_buffer b intent = Some b' ->
     sublist (map node_key (nodes b)) (map node_key (nodes b'))).
Proof.
  split.
  - intros b Hr Hs. apply render_chars_of_render in Hr. simpl in Hr.
    assert (Hc : count_visible (nodes b) = 3) by (rewrite count_visible_render, Hr; reflexivity).
    unfold apply_intent, apply_intent_buffer. rewrite Hc.
    destruct (delete_repeat_total 0 3 b) as (b1 & E1 & Hs1 & _ & Hn1); [simpl; lia|].
    rewrite E1. simpl.
    assert (Hr1 : render_chars (nodes b1) = []).
    { rewrite Hn1. simpl. rewrite !delete_loop_render by lia. rewrite Hr. reflexivity. }
    assert (Ht : nodes b1 = map tombstone (nodes b)).
    { rewrite <- (map_tombstone_invisible (nodes b1)) by (rewrite count_visible_render, Hr1; reflexivity).
      rewrite Hn1. apply map_tombstone_iter. }
    destruct (apply_local_insert_spec b1 0 "x"%char) as (i & Hi & E2); [lia|].
    rewrite E2. simpl. eexists. split; [reflexivity|].
    pose proof (take_drop i (nodes b1)) as Htd. rewrite <- Htd, render_chars_app in Hr1.
    apply app_eq_nil in Hr1 as [Hr1a Hr1b].
    split; [unfold render; simpl; rewrite render_chars_app; simpl; rewrite Hr1a, Hr1b; reflexivity|].
    split; [rewrite <- Ht; apply sublist_insert_at|].
    simpl. rewrite length_app. simpl. rewrite <- (length_map tombstone (nodes b)), <- Ht.
    rewrite <- Htd at 3. rewrite length_app. lia.
  - intros b b' intent H. apply (apply_intent_buffer_keeps b b' intent H).
Qed.

Lemma replace_all_scenario_d_witness :
  exists b', apply_intent (mkBuffer 1 3 [mkNode (mkId 1 1) None "a"%char true;
                                       mkNode (mkId 1 2) (Some (mkId 1 1)) "b"%char true;
                                       mkNode (mkId 1 3) (Some (mkId 1 2)) "c"%char true]
                             {[1%N := 3%N]} [])
                          (ReplaceAll "x") = Some (b', mkFrontendUpdate (Some (render b'))) /\
    render b' = "x"%string /\
    sublist (map tombstone [mkNode (mkId 1 1) None "a"%char true;
                            mkNode (mkId 1 2) (Some (mkId 1 1)) "b"%char true;
                            mkNode (mkId 1 3) (Some (mkId 1 2)) "c"%char true]) (nodes b') /\
    length (nodes b') = S 3.
Proof. apply (proj1 replace_all_scenario_d); vm_compute; [reflexivity|discriminate]. Defined.

End CrdtProps.


(** * Further properties of [crdt.rs] *)
Module CrdtExtra.
Import Crdt CrdtProps.

(** ** [impl Ord for Id] *)

Lemma id_eqb_spec (a b : Id) : id_eqb a b = true <-> a = b.
Proof.
  destruct a as [ra va], b as [rb vb]. unfold id_eqb. simpl.
  rewrite andb_true_iff, !N.eqb_eq. split; [intros [-> ->]; reflexivity|].
  intros H; injection H as -> ->. split; reflexivity.
Qed.

(** X1: [Id::cmp] is a total order that agrees with the derived equality:
    it answers [Equal] exactly on equal Ids, swapping the arguments reverses
    the answer, and [<] is transitive. *)
Theorem id_cmp_total_order :
  (forall a b : Id, id_cmp a b = Eq <-> a = b) /\
  (forall a b : Id, id_cmp b a = CompOpp (id_cmp a b)) /\
  (forall a b c : Id, id_ltb a b = true -> id_ltb b c = true -> id_ltb a c = true) /\
  (forall a b : Id, id_eqb a b = true <-> id_cmp a b = Eq).
Proof.
  assert (Heq : forall a b : Id, id_cmp a b = Eq <-> a = b).
  { intros [ra va] [rb vb]. unfold id_cmp. simpl.
    destruct (N.compare_spec va vb) as [->|H|H].
    - rewrite N.compare_eq_iff. split; [intros ->; reflexivity|congruence].
    - split; [discriminate|intros E; injection E; lia].
    - split; [discriminate|intros E; injection E; lia]. }
  split; [exact Heq|]. split; [|split].
  - intros [ra va] [rb vb]. unfold id_cmp. simpl.
    destruct (N.compare_spec va vb) as [->|H|H].
    + rewrite N.compare_refl. apply N.compare_antisym.
    + rewrite (proj2 (N.compare_gt_iff vb va)) by lia. reflexivity.
    + rewrite (proj2 (N.compare_lt_iff vb va)) by lia. reflexivity.
  - intros a b c. unfold id_ltb, id_cmp.
    destruct (N.compare_spec (value a) (value b)) as [E1|E1|E1];
      destruct (N.compare_spec (value b) (value c)) as [E2|E2|E2];
      try discriminate; intros H1 H2.
    + rewrite E1, E2, N.compare_refl.
      destruct (N.compare_spec (replica_id a) (replica_id b)); try discriminate.
      destruct (N.compare_spec (replica_id b) (replica_id c)); try discriminate.
      rewrite (proj2 (N.compare_lt_iff _ _)) by lia. reflexivity.
    + rewrite (proj2 (N.compare_lt_iff (value a) (value c))) by lia. reflexivity.
    + rewrite (proj2 (N.compare_lt_iff (value a) (value c))) by lia. reflexivity.
    + rewrite (proj2 (N.compare_lt_iff (value a) (value c))) by lia. reflexivity.
  - intros a b. rewrite id_eqb_spec, Heq. reflexivity.
Qed.

(** ** [Global::update] *)

Lemma global_update_max (state : gmap N N) (id : Id) :
  global_update state id
  = <[replica_id id := N.max (default 0%N (state !! replica_id id)) (value id)]> state.
Proof.
  unfold global_update. f_equal.
  destruct (N.ltb_spec (default 0%N (state !! replica_id id)) (value id)); lia.
Qed.

(** X2: [Global::update] only touches the entry of the Id's replica, and
    folding Ids into a version vector is idempotent and does not depend on
    the order in which the Ids come. *)
Theorem global_update_comm_idem :
  (forall (state : gmap N N) (id : Id) (k : N),
     k <> replica_id id -> global_update state id !! k = state !! k) /\
  (forall (state : gmap N N) (id : Id),
     global_update (global_update state id) id = global_update state id) /\
  (forall (state : gmap N N) (a b : Id),
     global_update (global_update state a) b = global_update (global_update state b) a).
Proof.
  split; [|split].
  - intros state id k Hk. rewrite global_update_max, lookup_insert_ne by congruence.
    reflexivity.
  - intros state id. rewrite !global_update_max, lookup_insert_eq, insert_insert_eq.
    simpl. f_equal. lia.
  - intros state a b. apply map_eq. intros k. rewrite !global_update_max.
    destruct (decide (replica_id a = k)) as [<-|Ha];
      destruct (decide (replica_id b = replica_id a)) as [Hb|Hb];
      try destruct (decide (replica_id b = k)) as [<-|Hb'];
      repeat first [rewrite lookup_insert_eq | rewrite lookup_insert_ne by congruence
                   | rewrite Hb]; simpl; try reflexivity; f_equal; lia.
Qed.

(** ** [Buffer::find_index] and [Buffer::find_visible_insertion_point] *)

(** X3: [find_index] returns the position of the first node carrying the
    Id, and [None] exactly when no node carries it. *)
Theorem find_index_spec (ns : list Node) (id : Id) :
  (forall k, find_index ns id = Some k <->
     (exists n, ns !! k = Some n /\ insertion_id n = id) /\
     (forall j n, j < k -> ns !! j = Some n -> insertion_id n <> id)) /\
  (find_index ns id = None <-> forall n, n ∈ ns -> insertion_id n <> id).
Proof.
  induction ns as [|m t [IH1 IH2]]; simpl.
  - split; [intros k; split; [discriminate|intros [[n [Hn _]] _]; discriminate]|].
    split; [intros _ n Hn; inversion Hn|reflexivity].
  - destruct (id_eqb (insertion_id m) id) eqn:E.
    + apply id_eqb_spec in E. split.
      * intros k. split.
        -- intros H; injection H as <-. split; [exists m; split; [reflexivity|exact E]|].
           intros j n Hj. lia.
        -- intros [[n [Hn Hid]] Hbef]. destruct k as [|k]; [reflexivity|].
           exfalso. apply (Hbef 0 m); [lia|reflexivity|exact E].
      * split; [discriminate|]. intros H. exfalso. apply (H m); [left|exact E].
    + assert (Hne : insertion_id m <> id) by (intros Hc; apply id_eqb_spec in Hc; congruence).
      split.
      * intros k. destruct (find_index t id) as [k'|] eqn:Ef; simpl.
        -- split.
           ++ intros H; injection H as <-. destruct (proj1 (IH1 k') eq_refl) as [Hex Hbef].
              split; [exact Hex|]. intros [|j] n Hj Hn; [simpl in Hn; congruence|].
              apply (Hbef j); [lia|exact Hn].
           ++ intros [[n [Hn Hid]] Hbef]. destruct k as [|k]; [simpl in Hn; congruence|].
              f_equal. assert (Hk : Some k' = Some k).
              { apply IH1. split; [exists n; split; assumption|].
                intros j n' Hj Hn'. apply (Hbef (S j)); [lia|exact Hn']. }
              congruence.
        -- split; [discriminate|]. intros [[n [Hn Hid]] _].
           destruct k as [|k]; [simpl in Hn; congruence|].
           exfalso. apply ((proj1 IH2) eq_refl n); [|exact Hid]. simpl in Hn.
           apply list_elem_of_lookup. eexists; exact Hn.
      * destruct (find_index t id) as [k'|] eqn:Ef; simpl.
        -- split; [discriminate|]. intros H. exfalso.
           destruct (proj1 (IH1 k') eq_refl) as [[n [Hn Hid]] _]. apply (H n); [right|exact Hid].
           apply list_elem_of_lookup. eexists; exact Hn.
        -- split; [|reflexivity]. intros _ n Hn. apply elem_of_cons in Hn as [->|Hn];
             [exact Hne|]. exact (proj1 IH2 eq_refl n Hn).
Qed.

Lemma fvip_loop_spec (pos : N) (ns : list Node) :
  forall count : N, (count < pos)%N ->
  fvip_loop pos count ns
  = insertion_id <$> visible_nodes ns !! (N.to_nat (pos - count) - 1).
Proof.
  induction ns as [|n t IH]; intros count H; simpl; [reflexivity|].
  unfold visible_nodes. simpl. destruct (visible n).
  - destruct (N.eqb_spec (count + 1) pos) as [<-|Hne].
    + replace (N.to_nat (count + 1 - count) - 1) with 0 by lia. reflexivity.
    + rewrite IH by lia.
      replace (N.to_nat (pos - count) - 1) with (S (N.to_nat (pos - (count + 1)) - 1)) by lia.
      reflexivity.
  - apply IH. exact H.
Qed.

(** X4: [find_visible_insertion_point(pos)] is [None] at 0 and otherwise
    the Id of the [pos]-th visible node (counting from 1), [None] when there
    are fewer visible nodes. *)
Theorem find_visible_insertion_point_spec (ns : list Node) (pos : N) :
  find_visible_insertion_point ns pos
  = if (pos =? 0)%N then None
    else insertion_id <$> visible_nodes ns !! (N.to_nat pos - 1).
Proof.
  unfold find_visible_insertion_point. destruct (N.eqb_spec pos 0); [reflexivity|].
  rewrite fvip_loop_spec by lia. rewrite N.sub_0_r. reflexivity.
Qed.

(** ** Where [insert_node] puts a node *)

Lemma skip_siblings_spec (node : Node) (rest : list Node) :
  forall index : nat, exists m,
    skip_siblings node rest index = index + m /\ m <= length rest /\
    (forall j c, j < m -> rest !! j = Some c -> skips node c = true) /\
    (forall c, rest !! m = Some c -> skips node c = false).
Proof.
  induction rest as [|c r IH]; intros index; simpl.
  - exists 0. split; [lia|]. split; [lia|]. split; [intros; lia|discriminate].
  - destruct (opt_id_eqb (relative_to_id c) (relative_to_id node)
              && id_ltb (insertion_id c) (insertion_id node)) eqn:E.
    + destruct (IH (S index)) as (m & Hm & Hl & Hb & Ha).
      exists (S m). split; [lia|]. split; [lia|]. split.
      * intros [|j] c' Hj Hc; simpl in Hc; [injection Hc as <-; exact E|].
        apply (Hb j); [lia|exact Hc].
      * intros c' Hc. simpl in Hc. exact (Ha c' Hc).
    + exists 0. split; [lia|]. split; [lia|]. split; [intros; lia|].
      intros c' Hc. simpl in Hc. injection Hc as <-. exact E.
Qed.

Lemma anchor_start_le (ns : list Node) (node : Node) : anchor_start ns node <= length ns.
Proof.
  unfold anchor_start. destruct (relative_to_id node) as [rel|]; [|lia].
  destruct (find_index ns rel) as [idx|] eqn:E; [apply find_index_lt in E|]; lia.
Qed.

Lemma insert_node_scan (ns : list Node) (node : Node) :
  exists i, insert_node ns node = Some (take i ns ++ node :: drop i ns) /\
    anchor_start ns node <= i <= length ns /\
    (forall j c, anchor_start ns node <= j < i -> ns !! j = Some c -> skips node c = true) /\
    (forall c, ns !! i = Some c -> skips node c = false).
Proof.
  pose proof (anchor_start_le ns node) as Hs.
  change (insert_node ns node)
    with (vec_insert ns (skip_siblings node (drop (anchor_start ns node) ns)
                           (anchor_start ns node)) node).
  destruct (skip_siblings_spec node (drop (anchor_start ns node) ns) (anchor_start ns node))
    as (m & Hm & Hl & Hb & Ha).
  rewrite Hm. rewrite length_drop in Hl.
  exists (anchor_start ns node + m). split.
  - unfold vec_insert. rewrite (proj2 (Nat.leb_le _ _)) by lia. reflexivity.
  - split; [lia|]. split.
    + intros j c Hj Hc. apply (Hb (j - anchor_start ns node)); [lia|].
      rewrite lookup_drop. replace (anchor_start ns node + (j - anchor_start ns node)) with j
        by lia. exact Hc.
    + intros c Hc. apply Ha. rewrite lookup_drop. exact Hc.
Qed.


(** X5: [insert_node] starts right after the anchor (at 0 for [None], at the
    end when the anchor is absent), passes over exactly the consecutive
    siblings with a smaller Id, and inserts the node before the first node
    that is not one. *)
Theorem insert_node_placement (ns : list Node) (node : Node) :
  exists i, insert_node ns node = Some (take i ns ++ node :: drop i ns) /\
    anchor_start ns node <= i <= length ns /\
    (forall j c, anchor_start ns node <= j < i -> ns !! j = Some c -> skips node c = true) /\
    (forall c, ns !! i = Some c -> skips node c = false).
Proof. exact (insert_node_scan ns node). Qed.

Lemma insert_node_placement_witness :
  exists i, insert_node [nX; nY] nZ = Some (take i [nX; nY] ++ nZ :: drop i [nX; nY]) /\
    anchor_start [nX; nY] nZ <= i <= length [nX; nY] /\
    (forall j c, anchor_start [nX; nY] nZ <= j < i -> [nX; nY] !! j = Some c ->
                 skips nZ c = true) /\
    (forall c, [nX; nY] !! i = Some c -> skips nZ c = false).
Proof. exact (insert_node_placement [nX; nY] nZ). Defined.

(** ** Local insertion and deletion *)

Lemma render_insert_at (ns : list Node) (i : nat) (node : Node) :
  let r := render_chars ns in
  let p := length (render_chars (take i ns)) in
  render_chars (take i ns ++ node :: drop i ns)
  = take p r ++ (if visible node then [text node] else []) ++ drop p r.
Proof.
  intros r p. unfold r, p. pose proof (take_drop i ns) as Htd.
  remember (take i ns) as l1. remember (drop i ns) as l2. clear Heql1 Heql2. subst ns.
  rewrite !render_chars_app, take_app_length, drop_app_length. simpl.
  destruct (visible node); reflexivity.
Qed.

(** X6: a successful [apply_local_insert] takes the next sequence number,
    inserts its character somewhere in the rendered text, leaving the other
    characters in order, and returns an insert Op carrying the new Id, the
    anchor found by [find_visible_insertion_point], the character and the
    updated version vector. *)
Theorem apply_local_insert_render (b b' : Buffer) (op : Op) (pos : N) (c : ascii) :
  apply_local_insert b pos c = Some (b', op) ->
  let id := mkId (b_replica_id b) (sequence b + 1) in
  (exists p, p <= length (render_chars (nodes b)) /\
     render_chars (nodes b') = take p (render_chars (nodes b)) ++ c :: drop p (render_chars (nodes b))) /\
  sequence b' = (sequence b + 1)%N /\
  b_version b' = global_update (b_version b) id /\
  op = mkOp id (find_visible_insertion_point (nodes b) pos) (Some c) (b_version b') false.
Proof.
  intros H id.
  destruct (N.le_gt_cases (sequence b + 1) u32_max) as [Hle|Hgt].
  2: { rewrite apply_local_insert_overflow in H by exact Hgt. discriminate. }
  destruct (apply_local_insert_spec b pos c Hle) as (i & Hi & E). rewrite E in H.
  injection H as <- <-. simpl. split; [|split; [reflexivity|split; reflexivity]].
  exists (length (render_chars (take i (nodes b)))). split.
  - rewrite <- (take_drop i (nodes b)) at 2. rewrite render_chars_app, length_app. lia.
  - rewrite render_insert_at. reflexivity.
Qed.

Lemma apply_local_insert_render_witness :
  (exists b' op, apply_local_insert sample_buffer 1 "z"%char = Some (b', op)) /\
  forall b' op, apply_local_insert sample_buffer 1 "z"%char = Some (b', op) ->
  let id := mkId (b_replica_id sample_buffer) (sequence sample_buffer + 1) in
  (exists p, p <= length (render_chars (nodes sample_buffer)) /\
     render_chars (nodes b') = take p (render_chars (nodes sample_buffer)) ++ "z"%char
                                 :: drop p (render_chars (nodes sample_buffer))) /\
  sequence b' = (sequence sample_buffer + 1)%N /\
  b_version b' = global_update (b_version sample_buffer) id /\
  op = mkOp id (find_visible_insertion_point (nodes sample_buffer) 1) (Some "z"%char)
         (b_version b') false.
Proof.
  split; [do 2 eexists; vm_compute; reflexivity|].
  intros b' op H. exact (apply_local_insert_render sample_buffer b' op 1 "z"%char H).
Defined.

(** X7: inserting at position 0 does not always put the character first:
    when the first node is visible, anchored at the start and has a smaller
    Id than the new one (as every earlier local insertion does), the new
    node is placed after it, so the text still starts with that node's
    character. *)
Theorem insert_at_zero_after_first_sibling (b b' : Buffer) (op : Op) (c : ascii)
    (n0 : Node) (rest : list Node) :
  nodes b = n0 :: rest -> relative_to_id n0 = None -> visible n0 = true ->
  id_ltb (insertion_id n0) (mkId (b_replica_id b) (sequence b + 1)) = true ->
  apply_local_insert b 0 c = Some (b', op) ->
  exists tl, render_chars (nodes b') = text n0 :: tl /\ tl <> [].
Proof.
  intros Hn Hr Hv Hlt H.
  destruct (N.le_gt_cases (sequence b + 1) u32_max) as [Hle|Hgt].
  2: { rewrite apply_local_insert_overflow in H by exact Hgt. discriminate. }
  unfold apply_local_insert in H. rewrite checked_add_u32_some in H by exact Hle.
  simpl in H. unfold find_visible_insertion_point in H. simpl in H.
  set (node := mkNode (mkId (b_replica_id b) (sequence b + 1)) None c true) in H.
  destruct (insert_node_scan (nodes b) node) as (i & E & [_ Hi] & _ & Ha).
  rewrite E in H. simpl in H. injection H as <- _. simpl.
  destruct i as [|i].
  - exfalso. rewrite Hn in Ha. specialize (Ha n0 eq_refl).
    unfold skips, node in Ha. cbn [insertion_id relative_to_id] in Ha.
    rewrite Hr, Hlt in Ha. discriminate.
  - rewrite Hn. simpl. rewrite Hv. eexists. split; [reflexivity|].
    rewrite render_chars_app. simpl. destruct (render_chars (take i rest)); discriminate.
Qed.

Definition sample_buffer_a : Buffer :=
  mkBuffer 1 1 [mkNode (mkId 1 1) None "a"%char true] {[1%N := 1%N]} [].

Lemma insert_at_zero_after_first_sibling_witness :
  apply_local_insert sample_buffer_a 0 "z"%char <> None /\
  forall b' op, apply_local_insert sample_buffer_a 0 "z"%char = Some (b', op) ->
  exists tl, render_chars (nodes b') = "a"%char :: tl /\ tl <> [].
Proof.
  split; [vm_compute; discriminate|].
  intros b' op H.
  exact (insert_at_zero_after_first_sibling sample_buffer_a b' op "z"%char
           (mkNode (mkId 1 1) None "a"%char true) [] eq_refl eq_refl eq_refl eq_refl H).
Defined.

Lemma delete_loop_target (pos : N) (ns : list Node) :
  forall count : N, (count <= pos)%N ->
  (delete_loop pos count ns).2 = insertion_id <$> visible_nodes ns !! N.to_nat (pos - count).
Proof.
  induction ns as [|n t IH]; intros count H; simpl; [reflexivity|].
  unfold visible_nodes. simpl. destruct (visible n).
  - destruct (N.eqb_spec count pos) as [->|Hne].
    + rewrite N.sub_diag. reflexivity.
    + specialize (IH (count + 1)%N ltac:(lia)).
      destruct (delete_loop pos (count + 1) t) as [t' r]. simpl in *. rewrite IH.
      replace (N.to_nat (pos - count)) with (S (N.to_nat (pos - (count + 1)))) by lia.
      reflexivity.
  - specialize (IH count H). destruct (delete_loop pos count t) as [t' r]. exact IH.
Qed.

(** X8: a successful [apply_local_delete(pos)] removes exactly the
    character at [pos] from the rendered text (nothing when [pos] is out of
    range), keeps every node with its Id, anchor and character, and returns a
    delete Op that targets the Id of the [pos]-th visible node (counting
    from 0). *)
Theorem apply_local_delete_in_range (b b' : Buffer) (op : Op) (pos : N) :
  apply_local_delete b pos = Some (b', op) ->
  render_chars (nodes b') = delete (N.to_nat pos) (render_chars (nodes b)) /\
  map node_key (nodes b') = map node_key (nodes b) /\
  relative_id op = insertion_id <$> visible_nodes (nodes b) !! N.to_nat pos /\
  op_text op = None /\ is_delete op = true.
Proof.
  intros H.
  destruct (N.le_gt_cases (sequence b + 1) u32_max) as [Hle|Hgt].
  2: { rewrite apply_local_delete_overflow in H by exact Hgt. discriminate. }
  rewrite (apply_local_delete_spec b pos Hle) in H. injection H as <- <-. simpl.
  rewrite delete_loop_render, delete_loop_target, delete_loop_keys by lia.
  rewrite N.sub_0_r. repeat split.
Qed.

Lemma apply_local_delete_in_range_witness :
  (exists b' op, apply_local_delete sample_buffer 0 = Some (b', op)) /\
  forall b' op, apply_local_delete sample_buffer 0 = Some (b', op) ->
  render_chars (nodes b') = delete 0 (render_chars (nodes sample_buffer)) /\
  map node_key (nodes b') = map node_key (nodes sample_buffer) /\
  relative_id op = insertion_id <$> visible_nodes (nodes sample_buffer) !! 0 /\
  op_text op = None /\ is_delete op = true.
Proof.
  split; [do 2 eexists; vm_compute; reflexivity|].
  intros b' op H. exact (apply_local_delete_in_range sample_buffer b' op 0 H).
Defined.

(** ** Ids of a locally edited buffer *)

Lemma ids_delete_loop (pos count : N) (ns : list Node) :
  map insertion_id (delete_loop pos count ns).1 = map insertion_id ns.
Proof.
  pose proof (delete_loop_keys pos count ns) as Hk.
  apply (f_equal (map (fun k : Id * option Id * ascii => k.1.1))) in Hk.
  rewrite !map_map in Hk. exact Hk.
Qed.

Lemma local_ids_ok_insert (b b' : Buffer) (op : Op) (pos : N) (c : ascii) :
  local_ids_ok b -> apply_local_insert b pos c = Some (b', op) -> local_ids_ok b'.
Proof.
  intros [Hnd Hle] H.
  destruct (N.le_gt_cases (sequence b + 1) u32_max) as [Hs|Hgt].
  2: { rewrite apply_local_insert_overflow in H by exact Hgt. discriminate. }
  destruct (apply_local_insert_spec b pos c Hs) as (i & _ & E). rewrite E in H.
  injection H as <- _. unfold local_ids_ok. cbn [nodes sequence b_replica_id].
  set (id := mkId (b_replica_id b) (sequence b + 1)).
  set (node := mkNode id (find_visible_insertion_point (nodes b) pos) c true).
  assert (Hp : map insertion_id (take i (nodes b) ++ node :: drop i (nodes b))
               ≡ₚ id :: map insertion_id (nodes b)).
  { rewrite map_app. simpl. rewrite <- Permutation_middle, <- map_app, take_drop. reflexivity. }
  split.
  - rewrite Hp. apply NoDup_cons. split; [|exact Hnd].
    intros Hin. specialize (Hle id Hin eq_refl). unfold id in Hle. simpl in Hle. lia.
  - intros id' Hin Hr. rewrite Hp in Hin. apply elem_of_cons in Hin as [->|Hin]; [simpl; lia|].
    specialize (Hle id' Hin Hr). lia.
Qed.

Lemma local_ids_ok_delete (b b' : Buffer) (op : Op) (pos : N) :
  local_ids_ok b -> apply_local_delete b pos = Some (b', op) -> local_ids_ok b'.
Proof.
  intros [Hnd Hle] H.
  destruct (N.le_gt_cases (sequence b + 1) u32_max) as [Hs|Hgt].
  2: { rewrite apply_local_delete_overflow in H by exact Hgt. discriminate. }
  rewrite (apply_local_delete_spec b pos Hs) in H. injection H as <- _.
  unfold local_ids_ok. cbn [nodes sequence b_replica_id]. rewrite ids_delete_loop.
  split; [exact Hnd|]. intros id Hin Hr. specialize (Hle id Hin Hr). lia.
Qed.

(** A property of buffers kept by every local insertion and deletion is kept
    by [apply_intent] and by sequences of intents or local operations. *)
Section Preserve.
Variable P : Buffer -> Prop.
Hypothesis P_insert : forall b b' op pos c,
  P b -> apply_local_insert b pos c = Some (b', op) -> P b'.
Hypothesis P_delete : forall b b' op pos,
  P b -> apply_local_delete b pos = Some (b', op) -> P b'.

Lemma insert_at_loop_preserves (pos : N) (cs : list ascii) :
  forall (b b' : Buffer) (i : N), P b -> insert_at_loop b pos i cs = Some b' -> P b'.
Proof.
  induction cs as [|c cs IH]; intros b b' i Hb H; simpl in H.
  - injection H as <-. exact Hb.
  - destruct (checked_add_usize pos i) as [p|]; simpl in H; [|discriminate].
    destruct (apply_local_insert b p c) as [[b1 op]|] eqn:E; simpl in H; [|discriminate].
    exact (IH b1 b' (i + 1)%N (P_insert _ _ _ _ _ Hb E) H).
Qed.

Lemma insert_enum_loop_preserves (cs : list ascii) :
  forall (b b' : Buffer) (i : N), P b -> insert_enum_loop b i cs = Some b' -> P b'.
Proof.
  induction cs as [|c cs IH]; intros b b' i Hb H; simpl in H.
  - injection H as <-. exact Hb.
  - destruct (apply_local_insert b i c) as [[b1 op]|] eqn:E; simpl in H; [|discriminate].
    exact (IH b1 b' (i + 1)%N (P_insert _ _ _ _ _ Hb E) H).
Qed.

Lemma delete_repeat_preserves (pos : N) (k : nat) :
  forall (b b' : Buffer), P b -> delete_repeat b pos k = Some b' -> P b'.
Proof.
  induction k as [|k IH]; intros b b' Hb H; simpl in H.
  - injection H as <-. exact Hb.
  - destruct (apply_local_delete b pos) as [[b1 op]|] eqn:E; simpl in H; [|discriminate].
    exact (IH b1 b' (P_delete _ _ _ _ Hb E) H).
Qed.

Lemma apply_intent_buffer_preserves (b b' : Buffer) (intent : Intent) :
  P b -> apply_intent_buffer b intent = Some b' -> P b'.
Proof.
  intros Hb. destruct intent as [pos txt|s e|pos|txt]; simpl; intros H.
  - exact (insert_at_loop_preserves _ _ _ _ _ Hb H).
  - exact (delete_repeat_preserves _ _ _ _ Hb H).
  - injection H as <-. exact Hb.
  - destruct (delete_repeat b 0 (count_visible (nodes b))) as [b1|] eqn:E; simpl in H;
      [|discriminate].
    exact (insert_enum_loop_preserves _ _ _ _ (delete_repeat_preserves _ _ _ _ Hb E) H).
Qed.

Lemma run_intents_preserves (intents : list Intent) :
  forall (b b' : Buffer), P b -> run_intents b intents = Some b' -> P b'.
Proof.
  induction intents as [|it t IH]; intros b b' Hb H; simpl in H.
  - injection H as <-. exact Hb.
  - unfold apply_intent in H.
    destruct (apply_intent_buffer b it) as [b1|] eqn:E; simpl in H; [|discriminate].
    exact (IH b1 b' (apply_intent_buffer_preserves _ _ _ Hb E) H).
Qed.

Lemma run_local_preserves (ops : list LocalOp) :
  forall (b b' : Buffer), P b -> run_local b ops = Some b' -> P b'.
Proof.
  induction ops as [|o t IH]; intros b b' Hb H; simpl in H.
  - injection H as <-. exact Hb.
  - destruct o as [pos c|pos]; simpl in H.
    + destruct (apply_local_insert b pos c) as [[b1 op]|] eqn:E; simpl in H; [|discriminate].
      exact (IH b1 b' (P_insert _ _ _ _ _ Hb E) H).
    + destruct (apply_local_delete b pos) as [[b1 op]|] eqn:E; simpl in H; [|discriminate].
      exact (IH b1 b' (P_delete _ _ _ _ Hb E) H).
Qed.

End Preserve.

(** X9: local editing never creates two nodes with the same Id: a new
    buffer satisfies [local_ids_ok], every local insertion and deletion keeps
    it, and so every buffer reached from [Buffer::new] by intents or by local
    operations has pairwise distinct Ids. *)
Theorem local_ids_unique :
  (forall r, local_ids_ok (buffer_new r)) /\
  (forall b b' op pos c, local_ids_ok b -> apply_local_insert b pos c = Some (b', op) ->
     local_ids_ok b') /\
  (forall b b' op pos, local_ids_ok b -> apply_local_delete b pos = Some (b', op) ->
     local_ids_ok b') /\
  (forall r intents b', run_intents (buffer_new r) intents = Some b' ->
     NoDup (map insertion_id (nodes b'))) /\
  (forall r ops b', run_local (buffer_new r) ops = Some b' ->
     NoDup (map insertion_id (nodes b'))).
Proof.
  assert (Hnew : forall r, local_ids_ok (buffer_new r)).
  { intros r. split; [constructor|]. intros id Hin. inversion Hin. }
  split; [exact Hnew|]. split; [exact local_ids_ok_insert|]. split; [exact local_ids_ok_delete|].
  split.
  - intros r intents b' H.
    exact (proj1 (run_intents_preserves local_ids_ok local_ids_ok_insert local_ids_ok_delete
                    intents _ _ (Hnew r) H)).
  - intros r ops b' H.
    exact (proj1 (run_local_preserves local_ids_ok local_ids_ok_insert local_ids_ok_delete
                    ops _ _ (Hnew r) H)).
Qed.

(** ** Typing at the end of the text *)

Lemma count_visible_length (ns : list Node) : count_visible ns = length (visible_nodes ns).
Proof.
  induction ns as [|n t IH]; unfold visible_nodes in *; simpl; [reflexivity|].
  destruct (visible n); simpl; lia.
Qed.

Lemma visible_nodes_app (l1 l2 : list Node) :
  visible_nodes (l1 ++ l2) = visible_nodes l1 ++ visible_nodes l2.
Proof.
  induction l1 as [|n t IH]; unfold visible_nodes in *; simpl; [reflexivity|].
  destruct (visible n); simpl; congruence.
Qed.

Lemma last_visible_split (ns : list Node) :
  count_visible ns <> 0 ->
  exists pre a post, ns = pre ++ a :: post /\ visible a = true /\ count_visible post = 0.
Proof.
  induction ns as [|n t IH]; simpl; [congruence|]. intros H.
  destruct (Nat.eq_dec (count_visible t) 0) as [H0|H0].
  - destruct (visible n) eqn:Hv; [|congruence].
    exists [], n, t. split; [reflexivity|split; assumption].
  - destruct (IH H0) as (pre & a & post & -> & Hv & Hp).
    exists (n :: pre), a, post. split; [reflexivity|split; assumption].
Qed.

Lemma find_index_app (pre l : list Node) (id : Id) :
  (forall n, n ∈ pre -> insertion_id n <> id) ->
  find_index (pre ++ l) id = Nat.add (length pre) <$> find_index l id.
Proof.
  induction pre as [|m t IH]; intros H; simpl.
  - destruct (find_index l id); reflexivity.
  - assert (Hm : id_eqb (insertion_id m) id = false).
    { destruct (id_eqb (insertion_id m) id) eqn:E; [|reflexivity].
      apply id_eqb_spec in E. exfalso. apply (H m); [left|exact E]. }
    rewrite Hm, IH by (intros n Hn; apply H; right; exact Hn).
    destruct (find_index l id); reflexivity.
Qed.

Lemma render_chars_drop_nil (ns : list Node) (i : nat) :
  render_chars ns = [] -> render_chars (drop i ns) = [].
Proof.
  rewrite <- (take_drop i ns) at 1. rewrite render_chars_app. intros H.
  apply app_eq_nil in H. tauto.
Qed.

(** A node anchored where [find_visible_insertion_point] anchors a
    character typed after the last visible one lands after every visible
    node, provided the Ids are distinct. *)
Lemma insert_node_at_end (ns : list Node) (node : Node) :
  NoDup (map insertion_id ns) ->
  relative_to_id node = find_visible_insertion_point ns (N.of_nat (count_visible ns)) ->
  visible node = true ->
  exists ns', insert_node ns node = Some ns' /\ render_chars ns' = render_chars ns ++ [text node].
Proof.
  intros Hnd Hrel Hv.
  destruct (insert_node_scan ns node) as (i & E & [Hs _] & _).
  exists (take i ns ++ node :: drop i ns). split; [exact E|].
  assert (Hd : render_chars (drop i ns) = []).
  { destruct (Nat.eq_dec (count_visible ns) 0) as [H0|H0].
    - apply render_chars_drop_nil. rewrite count_visible_render in H0.
      destruct (render_chars ns); [reflexivity|discriminate].
    - destruct (last_visible_split ns H0) as (pre & a & post & Hns & Hva & Hp).
      assert (Hvp : visible_nodes post = []).
      { rewrite count_visible_length in Hp. destruct (visible_nodes post); [reflexivity|discriminate]. }
      assert (Hvn : visible_nodes ns = visible_nodes pre ++ [a]).
      { rewrite Hns, visible_nodes_app. unfold visible_nodes at 2. simpl. rewrite Hva.
        fold (visible_nodes post). rewrite Hvp. reflexivity. }
      assert (Hf : find_visible_insertion_point ns (N.of_nat (count_visible ns))
                   = Some (insertion_id a)).
      { unfold find_visible_insertion_point.
        rewrite (proj2 (N.eqb_neq _ _)) by lia. rewrite fvip_loop_spec by lia.
        rewrite Hvn, list_lookup_middle; [reflexivity|].
        rewrite count_visible_length, Hvn, length_app. simpl. lia. }
      assert (Hfi : find_index ns (insertion_id a) = Some (length pre)).
      { rewrite Hns, find_index_app; [simpl; rewrite id_eqb_refl; simpl; f_equal; lia|].
        intros n Hn Heq. rewrite Hns, map_app in Hnd. apply NoDup_app in Hnd as (_ & Hdis & _).
        apply (Hdis (insertion_id a)); [rewrite <- Heq|left].
        apply list_elem_of_In, in_map, list_elem_of_In. exact Hn. }
      assert (Ha : anchor_start ns node = S (length pre)).
      { unfold anchor_start. rewrite Hrel, Hf, Hfi. reflexivity. }
      rewrite Ha in Hs. rewrite Hns, drop_app_ge by lia.
      replace (i - length pre) with (S (i - length pre - 1)) by lia. simpl.
      apply render_chars_drop_nil. rewrite count_visible_render in Hp. destruct (render_chars post); [reflexivity|discriminate]. }
  assert (Hr : render_chars ns = render_chars (take i ns)).
  { rewrite <- (take_drop i ns) at 1. rewrite render_chars_app, Hd, app_nil_r. reflexivity. }
  rewrite render_chars_app, Hr. simpl. rewrite Hv, Hd. reflexivity.
Qed.

Lemma apply_local_insert_at_end (b b' : Buffer) (op : Op) (c : ascii) :
  NoDup (map insertion_id (nodes b)) ->
  apply_local_insert b (N.of_nat (count_visible (nodes b))) c = Some (b', op) ->
  render_chars (nodes b') = render_chars (nodes b) ++ [c].
Proof.
  intros Hnd H. unfold apply_local_insert in H.
  destruct (checked_add_u32 (sequence b) 1) as [sq|]; simpl in H; [|discriminate].
  destruct (insert_node_at_end (nodes b)
              (mkNode (mkId (b_replica_id b) sq)
                 (find_visible_insertion_point (nodes b) (N.of_nat (count_visible (nodes b))))
                 c true) Hnd eq_refl eq_refl) as (ns' & E & Hr).
  rewrite E in H. simpl in H. injection H as <- _. exact Hr.
Qed.

Lemma string_of_list_ascii_app (l1 l2 : list ascii) :
  string_of_list_ascii (l1 ++ l2) = (string_of_list_ascii l1 ++ string_of_list_ascii l2)%string.
Proof. induction l1 as [|a t IH]; simpl; [reflexivity|]. rewrite IH. reflexivity. Qed.

Lemma insert_at_loop_append (pos : N) (cs : list ascii) :
  forall (b : Buffer) (i : N),
  local_ids_ok b ->
  (pos + i)%N = N.of_nat (count_visible (nodes b)) ->
  (sequence b + N.of_nat (length cs) <= u32_max)%N ->
  (pos + i + N.of_nat (length cs) <= usize_max + 1)%N ->
  exists b', insert_at_loop b pos i cs = Some b' /\ local_ids_ok b' /\
    render_chars (nodes b') = render_chars (nodes b) ++ cs.
Proof.
  induction cs as [|c cs IH]; intros b i Hok Hp Hs Hu; simpl.
  - exists b. rewrite app_nil_r. split; [reflexivity|split; [exact Hok|reflexivity]].
  - assert (Hl : N.of_nat (length (c :: cs)) = (N.of_nat (length cs) + 1)%N)
      by (cbn [length]; lia).
    rewrite Hl in Hs, Hu.
    rewrite checked_add_usize_some by lia. simpl.
    destruct (apply_local_insert b (pos + i) c) as [[b1 op]|] eqn:E.
    2: { exfalso. destruct (apply_local_insert_spec b (pos + i) c) as (k & _ & E'); [lia|].
         rewrite E' in E. discriminate. }
    simpl. pose proof (apply_local_insert_some _ _ _ _ _ E) as (Hs1 & _).
    rewrite Hp in E.
    pose proof (apply_local_insert_at_end _ _ _ _ (proj1 Hok) E) as Hr1.
    pose proof (local_ids_ok_insert _ _ _ _ _ Hok E) as Hok1.
    destruct (IH b1 (i + 1)%N Hok1) as (b' & E' & Hok' & Hr'); [| lia | lia |].
    + rewrite count_visible_render, Hr1, length_app, <- count_visible_render. simpl. lia.
    + exists b'. split; [exact E'|]. split; [exact Hok'|].
      rewrite Hr', Hr1, <- app_assoc. reflexivity.
Qed.

Lemma insert_enum_loop_append (cs : list ascii) :
  forall (b : Buffer) (i : N),
  local_ids_ok b ->
  i = N.of_nat (count_visible (nodes b)) ->
  (sequence b + N.of_nat (length cs) <= u32_max)%N ->
  exists b', insert_enum_loop b i cs = Some b' /\ local_ids_ok b' /\
    render_chars (nodes b') = render_chars (nodes b) ++ cs.
Proof.
  induction cs as [|c cs IH]; intros b i Hok Hp Hs; simpl.
  - exists b. rewrite app_nil_r. split; [reflexivity|split; [exact Hok|reflexivity]].
  - assert (Hl : N.of_nat (length (c :: cs)) = (N.of_nat (length cs) + 1)%N)
      by (cbn [length]; lia).
    rewrite Hl in Hs.
    destruct (apply_local_insert b i c) as [[b1 op]|] eqn:E.
    2: { exfalso. destruct (apply_local_insert_spec b i c) as (k & _ & E'); [lia|].
         rewrite E' in E. discriminate. }
    simpl. pose proof (apply_local_insert_some _ _ _ _ _ E) as (Hs1 & _).
    rewrite Hp in E.
    pose proof (apply_local_insert_at_end _ _ _ _ (proj1 Hok) E) as Hr1.
    pose proof (local_ids_ok_insert _ _ _ _ _ Hok E) as Hok1.
    destruct (IH b1 (i + 1)%N Hok1) as (b' & E' & Hok' & Hr'); [| lia |].
    + rewrite Hp, !count_visible_render, Hr1, length_app. simpl. lia.
    + exists b'. split; [exact E'|]. split; [exact Hok'|].
      rewrite Hr', Hr1, <- app_assoc. reflexivity.
Qed.

(** X10: [InsertAt{pos, text}] with [pos] the number of visible
    characters appends [text] to the rendered text, on any buffer whose Ids
    are distinct (every buffer built by local editing, X9), as long as the
    sequence counter and the [usize] positions do not overflow; the update
    sent to the frontend is the new text, and the Ids stay distinct. *)
Theorem insert_at_end_appends (b : Buffer) (txt : string) :
  local_ids_ok b ->
  (sequence b + N.of_nat (String.length txt) <= u32_max)%N ->
  (N.of_nat (count_visible (nodes b)) + N.of_nat (String.length txt) <= usize_max + 1)%N ->
  exists b', apply_intent b (InsertAt (N.of_nat (count_visible (nodes b))) txt)
             = Some (b', mkFrontendUpdate (Some (render b'))) /\
    render b' = (render b ++ txt)%string /\ local_ids_ok b'.
Proof.
  intros Hok Hs Hu. rewrite <- length_list_ascii_of_string in Hs, Hu.
  destruct (insert_at_loop_append (N.of_nat (count_visible (nodes b)))
              (list_ascii_of_string txt) b 0 Hok) as (b' & E & Hok' & Hr); [lia|lia|lia|].
  exists b'. unfold apply_intent, apply_intent_buffer. rewrite E. simpl.
  split; [reflexivity|]. split; [|exact Hok'].
  unfold render. rewrite Hr, string_of_list_ascii_app, string_of_list_ascii_of_string.
  reflexivity.
Qed.

Lemma insert_at_end_appends_witness :
  exists b', apply_intent sample_buffer
               (InsertAt (N.of_nat (count_visible (nodes sample_buffer))) "bc")
             = Some (b', mkFrontendUpdate (Some (render b'))) /\
    render b' = (render sample_buffer ++ "bc")%string /\ local_ids_ok b'.
Proof.
  apply insert_at_end_appends.
  - split; [simpl; apply NoDup_singleton|].
    intros id Hin _. simpl in Hin. apply list_elem_of_singleton in Hin. subst id. simpl. lia.
  - simpl. unfold u32_max. lia.
  - simpl. unfold usize_max. lia.
Defined.

Lemma delete_zero_drop (l : list ascii) : delete 0 l = drop 1 l.
Proof. destruct l; reflexivity. Qed.

Lemma render_delete_iter (k : nat) (ns : list Node) :
  render_chars (Nat.iter k (fun ns => (delete_loop 0 0 ns).1) ns) = drop k (render_chars ns).
Proof.
  induction k as [|k IH]; simpl; [reflexivity|].
  rewrite delete_loop_render by lia. rewrite IH. simpl.
  rewrite delete_zero_drop, drop_drop. f_equal. lia.
Qed.

(** X11: [ReplaceAll{text}] renders exactly [text], on any buffer whose
    Ids are distinct and whose counter has room for the deletions and
    insertions it performs; the Ids stay distinct. *)
Theorem replace_all_renders (b : Buffer) (txt : string) :
  local_ids_ok b ->
  (sequence b + N.of_nat (count_visible (nodes b)) + N.of_nat (String.length txt) <= u32_max)%N ->
  exists b', apply_intent b (ReplaceAll txt) = Some (b', mkFrontendUpdate (Some (render b'))) /\
    render b' = txt /\ local_ids_ok b'.
Proof.
  intros Hok Hs. rewrite <- length_list_ascii_of_string in Hs.
  destruct (delete_repeat_total 0 (count_visible (nodes b)) b) as (b1 & E1 & Hs1 & _ & Hn1);
    [lia|].
  pose proof (delete_repeat_preserves local_ids_ok local_ids_ok_delete 0 _ _ _ Hok E1) as Hok1.
  assert (Hr1 : render_chars (nodes b1) = []).
  { rewrite Hn1, render_delete_iter, count_visible_render. apply drop_all. }
  destruct (insert_enum_loop_append (list_ascii_of_string txt) b1 0 Hok1)
    as (b' & E2 & Hok' & Hr'); [rewrite count_visible_render, Hr1; reflexivity|lia|].
  exists b'. unfold apply_intent, apply_intent_buffer. rewrite E1. simpl. rewrite E2. simpl.
  split; [reflexivity|]. split; [|exact Hok'].
  unfold render. rewrite Hr', Hr1. apply string_of_list_ascii_of_string.
Qed.

Lemma replace_all_renders_witness :
  exists b', apply_intent sample_buffer (ReplaceAll "xyz")
             = Some (b', mkFrontendUpdate (Some (render b'))) /\
    render b' = "xyz"%string /\ local_ids_ok b'.
Proof.
  apply replace_all_renders.
  - split; [simpl; apply NoDup_singleton|].
    intros id Hin _. simpl in Hin. apply list_elem_of_singleton in Hin. subst id. simpl. lia.
  - simpl. unfold u32_max. lia.
Defined.

(** X12: typing a string into a new backend ([InsertAt{0, text}] on
    [Buffer::new]) renders exactly that string, whenever its length fits the
    [u32] sequence counter. *)
Theorem new_buffer_insert_renders (r : N) (txt : string) :
  (N.of_nat (String.length txt) <= u32_max)%N ->
  exists b', apply_intent (buffer_new r) (InsertAt 0 txt)
             = Some (b', mkFrontendUpdate (Some txt)) /\ render b' = txt.
Proof.
  intros Hs. rewrite <- length_list_ascii_of_string in Hs.
  assert (Hok : local_ids_ok (buffer_new r)).
  { split; [constructor|]. intros id Hin. inversion Hin. }
  destruct (insert_at_loop_append 0 (list_ascii_of_string txt) (buffer_new r) 0 Hok)
    as (b' & E & _ & Hr); [reflexivity|simpl; lia|unfold u32_max, usize_max in *; lia|].
  assert (Hb : render b' = txt).
  { unfold render. rewrite Hr. apply string_of_list_ascii_of_string. }
  exists b'. unfold apply_intent, apply_intent_buffer. rewrite E. simpl. rewrite Hb.
  split; reflexivity.
Qed.

Lemma new_buffer_insert_renders_witness :
  exists b', apply_intent (buffer_new 7) (InsertAt 0 "hello")
             = Some (b', mkFrontendUpdate (Some "hello"%string)) /\ render b' = "hello"%string.
Proof. apply new_buffer_insert_renders. simpl. unfold u32_max. lia. Defined.

(** ** [DeleteRange] *)

Lemma iter_delete (s k : nat) (r : list ascii) :
  Nat.iter k (delete s) r = take s r ++ drop (s + k) r.
Proof.
  induction k as [|k IH]; simpl.
  - rewrite Nat.add_0_r, take_drop. reflexivity.
  - rewrite IH, delete_take_drop.
    destruct (Nat.le_gt_cases s (length r)) as [Hle|Hgt].
    + rewrite take_app_length' by (rewrite length_take; lia).
      rewrite drop_app_ge by (rewrite length_take; lia). rewrite length_take.
      replace (S s - s `min` length r) with 1 by lia. rewrite drop_drop. do 2 f_equal. lia.
    + rewrite (take_ge r s), (drop_ge r (s + k)), (drop_ge r (s + S k)) by lia.
      rewrite !app_nil_r, take_ge, drop_ge by lia. apply app_nil_r.
Qed.

Lemma render_delete_loop_iter (s : N) (k : nat) (ns : list Node) :
  render_chars (Nat.iter k (fun ns => (delete_loop s 0 ns).1) ns)
  = Nat.iter k (delete (N.to_nat s)) (render_chars ns).
Proof.
  induction k as [|k IH]; simpl; [reflexivity|].
  rewrite delete_loop_render by lia. rewrite N.sub_0_r, IH. reflexivity.
Qed.

Lemma delete_repeat_render (b b' : Buffer) (s : N) (k : nat) :
  delete_repeat b s k = Some b' ->
  render_chars (nodes b') = take (N.to_nat s) (render_chars (nodes b))
                            ++ drop (N.to_nat s + k) (render_chars (nodes b)) /\
  map tombstone (nodes b') = map tombstone (nodes b).
Proof.
  intros H. destruct (delete_repeat_some s k b b' H) as (_ & _ & Hn). rewrite Hn.
  split; [rewrite render_delete_loop_iter; apply iter_delete|apply map_tombstone_iter].
Qed.

(** X13: [DeleteRange{start, end}] removes from the rendered text exactly
    the characters at positions [start] to [end - 1] (those that exist):
    nothing when [end <= start] or [start] is past the end; no node is
    removed or changed except for its [visible] flag. *)
Theorem delete_range_renders (b : Buffer) (start end_ : N) :
  (sequence b + (end_ - start) <= u32_max)%N ->
  exists b', apply_intent b (DeleteRange start end_)
             = Some (b', mkFrontendUpdate (Some (render b'))) /\
    render_chars (nodes b') = take (N.to_nat start) (render_chars (nodes b))
                              ++ drop (N.to_nat (N.max start end_)) (render_chars (nodes b)) /\
    map tombstone (nodes b') = map tombstone (nodes b).
Proof.
  intros Hs.
  destruct (delete_repeat_total start (N.to_nat (end_ - start)) b) as (b' & E & _); [lia|].
  exists b'. unfold apply_intent, apply_intent_buffer. rewrite E. simpl.
  split; [reflexivity|].
  destruct (delete_repeat_render _ _ _ _ E) as [Hr Ht]. split; [|exact Ht].
  rewrite Hr. do 2 f_equal. destruct (N.max_spec start end_) as [[Hm ->]|[Hm ->]]; lia.
Qed.

Lemma delete_range_renders_witness :
  exists b', apply_intent sample_buffer (DeleteRange 0 5)
             = Some (b', mkFrontendUpdate (Some (render b'))) /\
    render_chars (nodes b') = take (N.to_nat 0) (render_chars (nodes sample_buffer))
                              ++ drop (N.to_nat (N.max 0 5)) (render_chars (nodes sample_buffer)) /\
    map tombstone (nodes b') = map tombstone (nodes sample_buffer).
Proof. apply delete_range_renders. simpl. unfold u32_max. lia. Defined.

(** X14: round trip: typing [text] at the end of the text and then
    deleting the range it occupies ([DeleteRange{n, n + len}]) gives back the
    original text, on a buffer with distinct Ids whose counter has room for
    both intents. *)
Theorem insert_then_delete_range_restores (b : Buffer) (txt : string) :
  local_ids_ok b ->
  (sequence b + 2 * N.of_nat (String.length txt) <= u32_max)%N ->
  (N.of_nat (count_visible (nodes b)) + N.of_nat (String.length txt) <= usize_max + 1)%N ->
  exists b1 b2,
    apply_intent b (InsertAt (N.of_nat (count_visible (nodes b))) txt)
      = Some (b1, mkFrontendUpdate (Some (render b1))) /\
    apply_intent b1 (DeleteRange (N.of_nat (count_visible (nodes b)))
                       (N.of_nat (count_visible (nodes b)) + N.of_nat (String.length txt)))
      = Some (b2, mkFrontendUpdate (Some (render b2))) /\
    render b2 = render b /\ local_ids_ok b2.
Proof.
  intros Hok Hs Hu. rewrite <- length_list_ascii_of_string in Hs, Hu.
  set (n := count_visible (nodes b)).
  destruct (insert_at_loop_append (N.of_nat n) (list_ascii_of_string txt) b 0 Hok)
    as (b1 & E1 & Hok1 & Hr1); [lia|lia|lia|].
  pose proof (insert_at_loop_keeps _ _ _ _ _ E1) as Hk1.
  destruct (insert_at_loop_total (N.of_nat n) (list_ascii_of_string txt) b 0)
    as (b1' & E1' & Hs1 & _); [lia| |].
  { destruct (list_ascii_of_string txt); [left; reflexivity|right; cbn [length] in *; lia]. }
  rewrite E1 in E1'. injection E1' as <-.
  set (k := N.to_nat (N.of_nat n + N.of_nat (length (list_ascii_of_string txt)) - N.of_nat n)).
  destruct (delete_repeat_total (N.of_nat n) k b1) as (b2 & E2 & _); [unfold k; lia|].
  pose proof (delete_repeat_preserves local_ids_ok local_ids_ok_delete _ _ _ _ Hok1 E2) as Hok2.
  destruct (delete_repeat_render _ _ _ _ E2) as [Hr2 _].
  exists b1, b2. unfold apply_intent, apply_intent_buffer.
  rewrite E1. simpl. split; [reflexivity|].
  rewrite <- length_list_ascii_of_string. fold k. rewrite E2. simpl.
  split; [reflexivity|]. split; [|exact Hok2].
  unfold render. f_equal. rewrite Hr2, Hr1.
  assert (Hn : length (render_chars (nodes b)) = n) by (unfold n; rewrite count_visible_render; reflexivity).
  rewrite Nat2N.id, take_app_length' by lia.
  rewrite drop_ge; [apply app_nil_r|]. rewrite length_app. unfold k. lia.
Qed.

Lemma insert_then_delete_range_restores_witness :
  exists b1 b2,
    apply_intent sample_buffer (InsertAt (N.of_nat (count_visible (nodes sample_buffer))) "xy")
      = Some (b1, mkFrontendUpdate (Some (render b1))) /\
    apply_intent b1 (DeleteRange (N.of_nat (count_visible (nodes sample_buffer)))
                       (N.of_nat (count_visible (nodes sample_buffer)) + N.of_nat (String.length "xy")))
      = Some (b2, mkFrontendUpdate (Some (render b2))) /\
    render b2 = render sample_buffer /\ local_ids_ok b2.
Proof.
  apply insert_then_delete_range_restores.
  - split; [simpl; apply NoDup_singleton|].
    intros id Hin _. simpl in Hin. apply list_elem_of_singleton in Hin. subst id. simpl. lia.
  - simpl. unfold u32_max. lia.
  - simpl. unfold usize_max. lia.
Defined.

End CrdtExtra.
